(** * Videogames API: the in-memory game store and its HTTP handlers

    A shallow embedding of [src/index.js].  The handlers registered with
    Express are modelled as state-passing functions over the two module-level
    variables [games] and [currentId]; a handler returns the response it sends
    together with the store it leaves behind.

    The file holds two revisions of the server.  Their game handlers are the
    same text; the revisions differ in how the port is chosen and in the
    banner list (the later one is modelled).

    Modelling conventions.
    - A JavaScript number that holds an id is an integer: the counter starts
      at 1 and only ever grows by one, and [parseInt] returns an integer or
      NaN.  Ids are therefore values of [Z], and NaN is [None] in
      [option Z].  (JavaScript numbers are exact on integers up to 2^53.)
    - A request body is the object produced by [express.json()]: a finite map
      from property names to JSON values.  A property that is not in the map
      reads as [undefined].
    - The array [games] is a [list Game]; [find]/[findIndex] are stdpp's
      [list_find], [push] appends at the end, [splice(index, 1)] removes one
      position, and assignment to a field of the found object replaces the
      record at the position where it was found. *)

From Stdlib Require Import ZArith Lia Ascii String.
From stdpp Require Import base option list strings gmap sorting.

Set Warnings "-register-all".
Local Open Scope Z_scope.

(** ** JavaScript values *)

Module Js.

(** The values a parsed JSON body can hold, plus [undefined] for a property
    that is absent. *)
Inductive Value : Type :=
  | Undefined
  | Null
  | Bool (b : bool)
  | Num (n : Z)
  | Str (s : string)
  | Arr (elems : list Value)
  | Obj (props : list (string * Value)).

(** ToBoolean: [undefined], [null], [false], [0] and the empty string are
    falsy; every other value, objects and arrays included, is truthy. *)
Definition truthy (v : Value) : bool :=
  match v with
  | Undefined | Null => false
  | Bool b => b
  | Num n => negb (n =? 0)
  | Str EmptyString => false
  | Str (String _ _) => true
  | Arr _ | Obj _ => true
  end.

(** [a || b] *)
Definition or (a b : Value) : Value := if truthy a then a else b.

(** Property read on a parsed object: [body.name], [undefined] if absent. *)
Definition prop (body : gmap string Value) (name : string) : Value :=
  default Undefined (body !! name).

(** *** [parseInt(string)] with no radix argument

    The steps of the ECMAScript definition: skip leading white space, take an
    optional sign, switch to radix 16 after a [0x]/[0X] prefix, read the
    longest prefix of digits of the radix, and answer NaN when that prefix is
    empty.  Strings are byte strings, so the white space code points beyond
    ASCII are recognised by their UTF-8 encodings. *)

Definition byte_of (a : ascii) : Z := Z.of_N (N_of_ascii a).

(** TAB, LF, VT, FF, CR, SP *)
Definition isAsciiWhiteSpace (a : ascii) : bool :=
  let c := byte_of a in ((9 <=? c) && (c <=? 13)) || (c =? 32).

(** U+00A0 *)
Definition isWhiteSpace2 (a b : ascii) : bool :=
  (byte_of a =? 194) && (byte_of b =? 160).

(** U+1680, U+2000..U+200A, U+2028, U+2029, U+202F, U+205F, U+3000, U+FEFF *)
Definition isWhiteSpace3 (a b c : ascii) : bool :=
  let '(x, y, z) := (byte_of a, byte_of b, byte_of c) in
  ((x =? 225) && (y =? 154) && (z =? 128))
  || ((x =? 226) && (y =? 128)
      && (((128 <=? z) && (z <=? 138)) || (z =? 168) || (z =? 169) || (z =? 175)))
  || ((x =? 226) && (y =? 129) && (z =? 159))
  || ((x =? 227) && (y =? 128) && (z =? 128))
  || ((x =? 239) && (y =? 187) && (z =? 191)).

Fixpoint trimStart (s : string) : string :=
  match s with
  | EmptyString => EmptyString
  | String a s1 =>
      if isAsciiWhiteSpace a then trimStart s1
      else match s1 with
           | EmptyString => s
           | String b s2 =>
               if isWhiteSpace2 a b then trimStart s2
               else match s2 with
                    | EmptyString => s
                    | String c s3 =>
                        if isWhiteSpace3 a b c then trimStart s3 else s
                    end
           end
  end.

(** The value of a character as a digit: [0-9], [a-z], [A-Z]. *)
Definition digitValue (a : ascii) : option Z :=
  let c := byte_of a in
  if (48 <=? c) && (c <=? 57) then Some (c - 48)
  else if (97 <=? c) && (c <=? 122) then Some (c - 87)
  else if (65 <=? c) && (c <=? 90) then Some (c - 55)
  else None.

Definition radixDigit (R : Z) (a : ascii) : option Z :=
  match digitValue a with
  | Some d => if d <? R then Some d else None
  | None => None
  end.

(** Reads the longest prefix of radix-[R] digits; [acc] is the value read so
    far, [None] as long as no digit was read. *)
Fixpoint parseDigits (R : Z) (acc : option Z) (s : string) : option Z :=
  match s with
  | EmptyString => acc
  | String a s' =>
      match radixDigit R a with
      | Some d => parseDigits R (Some (R * default 0 acc + d)) s'
      | None => acc
      end
  end.

Definition stripSign (s : string) : Z * string :=
  match s with
  | String "-"%char r => (-1, r)
  | String "+"%char r => (1, r)
  | _ => (1, s)
  end.

Definition stripPrefix (s : string) : Z * string :=
  match s with
  | String "0"%char (String "x"%char r) => (16, r)
  | String "0"%char (String "X"%char r) => (16, r)
  | _ => (10, s)
  end.

(** [None] is NaN.  The results [+0] and [-0] are both [Some 0]: [===] does
    not tell them apart. *)
Definition parseInt (s : string) : option Z :=
  let '(sign, s1) := stripSign (trimStart s) in
  let '(R, s2) := stripPrefix s1 in
  match parseDigits R None s2 with
  | Some m => Some (sign * m)
  | None => None
  end.

End Js.

(** ** The store *)

(** A game as [POST /games] builds it.  [title] and [platform] hold whatever
    truthy value the body carried; the two optional fields hold the value
    given or [null]. *)
Record Game : Type := mkGame {
  id : Z;
  title : Js.Value;
  platform : Js.Value;
  releaseYear : Js.Value;
  imageUrl : Js.Value
}.

(** [let games = []; let currentId = 1;] *)
Record Store : Type := mkStore {
  games : list Game;
  currentId : Z
}.

Definition initial : Store := {| games := []; currentId := 1 |}.

(** What [res.json] is given; [Nothing] stands for [undefined]. *)
Inductive Payload : Type :=
  | OneGame (g : Game)
  | GameList (gs : list Game)
  | Error (message : string)
  | Urls (urls : list string)
  | Nothing.

(** [res.status(code).json(payload)]; [res.json(payload)] answers 200. *)
Record Response : Type := mkResponse {
  status : Z;
  payload : Payload
}.

Definition json (p : Payload) : Response := {| status := 200; payload := p |}.

Definition missingFields : Response :=
  {| status := 400; payload := Error "Título e plataforma são obrigatórios" |}.

Definition notFound : Response :=
  {| status := 404; payload := Error "Jogo não encontrado" |}.

(** [g.id === parseInt(req.params.id)]: never true when the right side is
    NaN. *)
Definition idIs (n : option Z) (g : Game) : Prop := n = Some (id g).

#[global] Instance idIs_dec n g : Decision (idIs n g).
Proof. unfold idIs. apply _. Defined.

(** [games.splice(index, 1)]: the removed elements and the array left. *)
Definition splice1 (index : nat) (l : list Game) : list Game * list Game :=
  (take 1 (drop index l), delete index l).

Definition setTitle (v : Js.Value) (g : Game) : Game :=
  mkGame (id g) v (platform g) (releaseYear g) (imageUrl g).
Definition setPlatform (v : Js.Value) (g : Game) : Game :=
  mkGame (id g) (title g) v (releaseYear g) (imageUrl g).
Definition setReleaseYear (v : Js.Value) (g : Game) : Game :=
  mkGame (id g) (title g) (platform g) v (imageUrl g).
Definition setImageUrl (v : Js.Value) (g : Game) : Game :=
  mkGame (id g) (title g) (platform g) (releaseYear g) v.

(** [if (v) game.field = v;] *)
Definition assignIf (set : Js.Value → Game → Game) (v : Js.Value) (g : Game) : Game :=
  if Js.truthy v then set v g else g.

(** ** The handlers *)

(** [app.post("/games", ...)] *)
Definition post_games (body : gmap string Js.Value) (st : Store) : Response * Store :=
  let title := Js.prop body "title" in
  let platform := Js.prop body "platform" in
  let releaseYear := Js.prop body "releaseYear" in
  let imageUrl := Js.prop body "imageUrl" in
  if negb (Js.truthy title) || negb (Js.truthy platform) then
    (missingFields, st)
  else
    let newGame :=
      {| id := currentId st;
         title := title;
         platform := platform;
         releaseYear := Js.or releaseYear Js.Null;
         imageUrl := Js.or imageUrl Js.Null |} in
    ({| status := 201; payload := OneGame newGame |},
     {| games := games st ++ [newGame]; currentId := currentId st + 1 |}).

(** [app.get("/games", ...)] *)
Definition get_games (st : Store) : Response * Store :=
  (json (GameList (games st)), st).

(** [app.get("/games/:id", ...)] *)
Definition get_games_id (param : string) (st : Store) : Response * Store :=
  match list_find (idIs (Js.parseInt param)) (games st) with
  | None => (notFound, st)
  | Some (_, game) => (json (OneGame game), st)
  end.

(** [app.put("/games/:id", ...)]: the four conditional assignments act on the
    object [find] returned, which is the element of [games] at the position
    of the first match. *)
Definition put_games_id (param : string) (body : gmap string Js.Value) (st : Store)
  : Response * Store :=
  match list_find (idIs (Js.parseInt param)) (games st) with
  | None => (notFound, st)
  | Some (index, game) =>
      let game := assignIf setTitle (Js.prop body "title") game in
      let game := assignIf setPlatform (Js.prop body "platform") game in
      let game := assignIf setReleaseYear (Js.prop body "releaseYear") game in
      let game := assignIf setImageUrl (Js.prop body "imageUrl") game in
      (json (OneGame game),
       {| games := <[index := game]> (games st); currentId := currentId st |})
  end.

(** The record the four assignments of [PUT] leave in place of [game]. *)
Definition updatedGame (body : gmap string Js.Value) (game : Game) : Game :=
  assignIf setImageUrl (Js.prop body "imageUrl")
    (assignIf setReleaseYear (Js.prop body "releaseYear")
       (assignIf setPlatform (Js.prop body "platform")
          (assignIf setTitle (Js.prop body "title") game))).

(** [app.delete("/games/:id", ...)] *)
Definition delete_games_id (param : string) (st : Store) : Response * Store :=
  match fst <$> list_find (idIs (Js.parseInt param)) (games st) with
  | None => (notFound, st)
  | Some index =>
      let '(deletedGame, rest) := splice1 index (games st) in
      (json (match head deletedGame with Some g => OneGame g | None => Nothing end),
       {| games := rest; currentId := currentId st |})
  end.

(** [app.get("/banners", ...)] *)
Definition get_banners (st : Store) : Response * Store :=
  (json (Urls [
     "https://videogames-api-bbf46be3e1a8.herokuapp.com/images/banner1.png";
     "https://videogames-api-bbf46be3e1a8.herokuapp.com/images/banner2.png";
     "https://videogames-api-bbf46be3e1a8.herokuapp.com/images/banner3.png";
     "https://videogames-api-bbf46be3e1a8.herokuapp.com/images/banner4.png" ]%string),
   st).

(** ** The listening port *)

(** [const port = 3000;] in the first revision of the file. *)
Definition port : Js.Value := Js.Num 3000.

(** [const PORT = process.env.PORT || 3000;] in the second.  The values of
    [process.env] are strings; a variable that is not set reads as
    [undefined]. *)
Definition PORT (env : gmap string string) : Js.Value :=
  Js.or (default Js.Undefined (Js.Str <$> env !! "PORT")) (Js.Num 3000).

(** ** Requests and runs of the server *)

Inductive Request : Type :=
  | POST_games (body : gmap string Js.Value)
  | GET_games
  | GET_games_id (param : string)
  | PUT_games_id (param : string) (body : gmap string Js.Value)
  | DELETE_games_id (param : string)
  | GET_banners.

(** Express routes a request to its handler. *)
Definition handle (r : Request) (st : Store) : Response * Store :=
  match r with
  | POST_games body => post_games body st
  | GET_games => get_games st
  | GET_games_id param => get_games_id param st
  | PUT_games_id param body => put_games_id param body st
  | DELETE_games_id param => delete_games_id param st
  | GET_banners => get_banners st
  end.

(** Requests are served one after the other, each to completion.  [serve]
    returns the exchanges in order, and the store after the last one. *)
Fixpoint serve (reqs : list Request) (st : Store) : list (Request * Response) * Store :=
  match reqs with
  | [] => ([], st)
  | r :: reqs' =>
      let '(res, st') := handle r st in
      let '(log, st'') := serve reqs' st' in
      ((r, res) :: log, st'')
  end.

(** The record a successful create answered with. *)
Definition createdGame (e : Request * Response) : option Game :=
  match e with
  | (POST_games _, res) =>
      if status res =? 201
      then match payload res with OneGame g => Some g | _ => None end
      else None
  | _ => None
  end.

(** The records created during a run, in the order of their creation. *)
Definition created (log : list (Request * Response)) : list Game :=
  omap createdGame log.

(** A delete that answered 200. *)
Definition deleteSucceeded (e : Request * Response) : bool :=
  match e with
  | (DELETE_games_id _, res) => status res =? 200
  | _ => false
  end.

Definition deletes (log : list (Request * Response)) : nat :=
  length (filter (λ e, deleteSucceeded e = true) log).

(** The stores the server can be in. *)
Definition reachable (st : Store) : Prop :=
  ∃ reqs, (serve reqs initial).2 = st.

(** ** The transitions of the store

    Seen from the store, a request does one of four things. *)
Inductive transition (st : Store) : Request → Response → Store → Prop :=
  | t_none r res :
      createdGame (r, res) = None → deleteSucceeded (r, res) = false →
      transition st r res st
  | t_create body g :
      id g = currentId st →
      Js.truthy (title g) = true → Js.truthy (platform g) = true →
      transition st (POST_games body) {| status := 201; payload := OneGame g |}
        {| games := games st ++ [g]; currentId := currentId st + 1 |}
  | t_update param body i g :
      games st !! i = Some g →
      transition st (PUT_games_id param body) (json (OneGame (updatedGame body g)))
        {| games := <[i := updatedGame body g]> (games st); currentId := currentId st |}
  | t_delete param i g :
      games st !! i = Some g →
      transition st (DELETE_games_id param) (json (OneGame g))
        {| games := delete i (games st); currentId := currentId st |}.

(** ** Store invariants *)

(** Every stored id was handed out by the counter, and no two stored records
    share one. *)
Record idsOk (st : Store) : Prop := {
  counter_positive : 1 ≤ currentId st;
  ids_below : Forall (λ g, 1 ≤ id g < currentId st) (games st);
  ids_distinct : NoDup (id <$> games st)
}.

(** [title] and [platform] of every stored record are truthy. *)
Definition requiredPresent (st : Store) : Prop :=
  Forall (λ g, Js.truthy (title g) = true ∧ Js.truthy (platform g) = true) (games st).

(** ** Path parameters that are not numbers *)

(** The first character of [s] is an ASCII character that is neither white
    space, nor a sign, nor a decimal digit. *)
Definition startsNonNumeric (s : string) : Prop :=
  match s with
  | EmptyString => True
  | String a _ =>
      let c := Js.byte_of a in
      c < 128 ∧ ¬ (9 ≤ c ≤ 13) ∧ c ≠ 32 ∧ c ≠ 43 ∧ c ≠ 45 ∧ ¬ (48 ≤ c ≤ 57)
  end.

(** ** The path a client asks for *)

(** The decimal numeral of a non-negative integer, most significant digit
    first: what a client writes for [:id] in [/games/:id]. *)
Definition digitChar (d : Z) : ascii := ascii_of_N (Z.to_N (48 + d)).

Fixpoint toDigits (fuel : nat) (n : Z) (acc : string) : string :=
  match fuel with
  | O => acc
  | S fuel' =>
      let acc' := String (digitChar (n mod 10)) acc in
      if n <? 10 then acc' else toDigits fuel' (n / 10) acc'
  end.

Definition decimal (n : Z) : string :=
  toDigits (S (Z.to_nat (Z.log2 n))) n "".

(** A string of at least one decimal digit that continues, if at all, with
    another decimal digit. *)
Definition digitsAhead (s : string) : Prop :=
  ∃ d rest, 0 ≤ d ≤ 9 ∧ s = String (digitChar d) rest ∧
    (rest = ""%string ∨ ∃ d' rest', 0 ≤ d' ≤ 9 ∧ rest = String (digitChar d') rest').

(** ** Reading and writing requests *)

(** The requests whose handlers only read [games]. *)
Definition readOnly (r : Request) : bool :=
  match r with
  | GET_games | GET_games_id _ | GET_banners => true
  | POST_games _ | PUT_games_id _ _ | DELETE_games_id _ => false
  end.

(** The record a successful delete answered with. *)
Definition deletedGame (e : Request * Response) : option Game :=
  match e with
  | (DELETE_games_id _, res) =>
      if status res =? 200
      then match payload res with OneGame g => Some g | _ => None end
      else None
  | _ => None
  end.

(** The ids removed during a run. *)
Definition deletedIds (log : list (Request * Response)) : list Z :=
  id <$> omap deletedGame log.

(** [{ error: message }] *)
Definition isError (p : Payload) : bool :=
  match p with Error _ => true | _ => false end.

(** An optional field holds [null] or a truthy value. *)
Definition optionalOk (v : Js.Value) : Prop := v = Js.Null ∨ Js.truthy v = true.

Definition optionalFields (st : Store) : Prop :=
  Forall (λ g, optionalOk (releaseYear g) ∧ optionalOk (imageUrl g)) (games st).

(** ** Sample requests and stores *)

Definition halo : gmap string Js.Value :=
  {[ "title" := Js.Str "Halo"; "platform" := Js.Str "Xbox" ]}.
Definition mario : gmap string Js.Value :=
  {[ "title" := Js.Str "Mario"; "platform" := Js.Str "Switch" ]}.

(** A body without [platform]. *)
Definition titleOnly : gmap string Js.Value := {[ "title" := Js.Str "Halo" ]}.

(** A body that tries to clear the title and sets the year. *)
Definition clearTitle : gmap string Js.Value :=
  {[ "title" := Js.Str ""; "releaseYear" := Js.Num 1985 ]}.

(** The store after Halo and Mario were created. *)
Definition twoGames : Store :=
  (serve [POST_games halo; POST_games mario] initial).2.

Definition haloGame : Game :=
  {| id := 1; title := Js.Str "Halo"; platform := Js.Str "Xbox";
     releaseYear := Js.Null; imageUrl := Js.Null |}.

Definition marioGame : Game :=
  {| id := 2; title := Js.Str "Mario"; platform := Js.Str "Switch";
     releaseYear := Js.Null; imageUrl := Js.Null |}.

(** * Properties *)

(** ** JavaScript values *)

Lemma truthy_Str s : Js.truthy (Js.Str s) = true ↔ s ≠ ""%string.
Proof. destruct s; simpl; split; intros; done. Qed.

Lemma truthy_nonempty v :
  Js.truthy v = true →
  v ≠ Js.Undefined ∧ v ≠ Js.Null ∧ v ≠ Js.Str "" ∧ v ≠ Js.Num 0 ∧ v ≠ Js.Bool false.
Proof.
  destruct v as [| |[]|n|[]| |]; simpl; intros H; split_and!; try done.
  intros [= ->]. done.
Qed.

Lemma prop_missing body name : body !! name = None → Js.prop body name = Js.Undefined.
Proof. unfold Js.prop. by intros ->. Qed.

(** ** Looking a record up by the path parameter *)

Lemma find_Some n l i g :
  list_find (idIs n) l = Some (i, g) →
  l !! i = Some g ∧ n = Some (id g) ∧
  ∀ j g', l !! j = Some g' → (j < i)%nat → n ≠ Some (id g').
Proof. intros H%list_find_Some. exact H. Qed.

Lemma find_None n l :
  list_find (idIs n) l = None ↔ ∀ g, g ∈ l → n ≠ Some (id g).
Proof. rewrite list_find_None, Forall_forall. reflexivity. Qed.

Lemma find_elem n l g :
  g ∈ l → n = Some (id g) → ∃ i g', list_find (idIs n) l = Some (i, g').
Proof.
  intros Hin Hn.
  destruct (list_find (idIs n) l) as [[i g']|] eqn:E; [eauto|].
  rewrite find_None in E. by destruct (E g Hin).
Qed.

(** With distinct ids, the record found is the only one with that id. *)
Lemma find_unique n l i g :
  NoDup (id <$> l) → l !! i = Some g → n = Some (id g) →
  list_find (idIs n) l = Some (i, g).
Proof.
  intros Hnd Hi Hn. apply list_find_Some. split_and!; [done..|].
  intros j g' Hj Hlt Hid. unfold idIs in Hid. subst n.
  assert (i = j); [|lia].
  eapply NoDup_lookup; [exact Hnd| |]; rewrite list_lookup_fmap.
  - by rewrite Hi.
  - rewrite Hj. simpl. congruence.
Qed.

(** The ids left after removing position [i]. *)
Lemma delete_ids_gone (l : list Game) i g :
  NoDup (id <$> l) → l !! i = Some g →
  ∀ g', g' ∈ delete i l → id g' ≠ id g.
Proof.
  intros Hnd Hi g' Hin Heq.
  apply list_elem_of_lookup in Hin as [j Hj].
  assert (∃ k, k ≠ i ∧ l !! k = Some g') as (k & Hk & Hlk).
  { destruct (decide (j < i)%nat).
    - exists j. split; [lia|]. by rewrite list_lookup_delete_lt in Hj.
    - exists (S j). split; [lia|]. by rewrite list_lookup_delete_ge in Hj by lia. }
  apply Hk. eapply NoDup_lookup; [exact Hnd| |]; rewrite list_lookup_fmap.
  - by rewrite Hlk.
  - rewrite Hi. simpl. congruence.
Qed.

Lemma splice1_lookup (l : list Game) i g :
  l !! i = Some g → splice1 i l = ([g], delete i l).
Proof.
  intros Hi. unfold splice1. f_equal.
  rewrite (drop_S l g i Hi). reflexivity.
Qed.

(** ** What each handler does *)

Lemma post_games_created body st :
  Js.truthy (Js.prop body "title") = true →
  Js.truthy (Js.prop body "platform") = true →
  let newGame :=
    {| id := currentId st;
       title := Js.prop body "title";
       platform := Js.prop body "platform";
       releaseYear := Js.or (Js.prop body "releaseYear") Js.Null;
       imageUrl := Js.or (Js.prop body "imageUrl") Js.Null |} in
  post_games body st =
    ({| status := 201; payload := OneGame newGame |},
     {| games := games st ++ [newGame]; currentId := currentId st + 1 |}).
Proof. intros Ht Hp. unfold post_games. rewrite Ht, Hp. reflexivity. Qed.

Lemma post_games_rejected body st :
  Js.truthy (Js.prop body "title") = false ∨
  Js.truthy (Js.prop body "platform") = false →
  post_games body st = (missingFields, st).
Proof.
  intros H. unfold post_games.
  destruct H as [-> | ->]; [|rewrite orb_true_r]; reflexivity.
Qed.

Lemma get_games_id_found param st i g :
  list_find (idIs (Js.parseInt param)) (games st) = Some (i, g) →
  get_games_id param st = (json (OneGame g), st).
Proof. intros H. unfold get_games_id. by rewrite H. Qed.

Lemma get_games_id_missing param st :
  (∀ g, g ∈ games st → Js.parseInt param ≠ Some (id g)) →
  get_games_id param st = (notFound, st).
Proof. intros H%find_None. unfold get_games_id. by rewrite H. Qed.

Lemma put_games_id_missing param body st :
  (∀ g, g ∈ games st → Js.parseInt param ≠ Some (id g)) →
  put_games_id param body st = (notFound, st).
Proof. intros H%find_None. unfold put_games_id. by rewrite H. Qed.

Lemma delete_games_id_missing param st :
  (∀ g, g ∈ games st → Js.parseInt param ≠ Some (id g)) →
  delete_games_id param st = (notFound, st).
Proof. intros H%find_None. unfold delete_games_id. by rewrite H. Qed.

Lemma delete_games_id_found param st i g :
  list_find (idIs (Js.parseInt param)) (games st) = Some (i, g) →
  delete_games_id param st =
    (json (OneGame g), {| games := delete i (games st); currentId := currentId st |}).
Proof.
  intros H. unfold delete_games_id. rewrite H.
  apply find_Some in H as (Hi & _).
  change (fst <$> Some (i, g)) with (Some i). cbv beta iota.
  by rewrite (splice1_lookup _ _ _ Hi).
Qed.

Lemma put_games_id_found param body st i g :
  list_find (idIs (Js.parseInt param)) (games st) = Some (i, g) →
  put_games_id param body st =
    (json (OneGame (updatedGame body g)),
     {| games := <[i := updatedGame body g]> (games st); currentId := currentId st |}).
Proof. intros H. unfold put_games_id. by rewrite H. Qed.

Lemma updatedGame_fields body g :
  updatedGame body g =
    {| id := id g;
       title := Js.or (Js.prop body "title") (title g);
       platform := Js.or (Js.prop body "platform") (platform g);
       releaseYear := Js.or (Js.prop body "releaseYear") (releaseYear g);
       imageUrl := Js.or (Js.prop body "imageUrl") (imageUrl g) |}.
Proof.
  unfold updatedGame, assignIf, Js.or. destruct g as [i t p y u].
  by repeat case_match.
Qed.

Lemma handle_transition r st :
  transition st r (handle r st).1 (handle r st).2.
Proof.
  destruct r as [body| |param|param body|param|]; simpl.
  - destruct (Js.truthy (Js.prop body "title")) eqn:Ht;
      [destruct (Js.truthy (Js.prop body "platform")) eqn:Hp|].
    + rewrite post_games_created by done. simpl. by constructor.
    + rewrite post_games_rejected by auto. by constructor.
    + rewrite post_games_rejected by auto. by constructor.
  - by constructor.
  - unfold get_games_id. case_match; [case_match|]; by constructor.
  - destruct (list_find (idIs (Js.parseInt param)) (games st)) as [[i g]|] eqn:E.
    + rewrite (put_games_id_found _ _ _ _ _ E). simpl.
      constructor. by apply find_Some in E as (? & _).
    + unfold put_games_id. rewrite E. by constructor.
  - destruct (list_find (idIs (Js.parseInt param)) (games st)) as [[i g]|] eqn:E.
    + rewrite (delete_games_id_found _ _ _ _ E). simpl.
      constructor. by apply find_Some in E as (? & _).
    + unfold delete_games_id. rewrite E. by constructor.
  - by constructor.
Qed.

Lemma serve_cons r reqs st :
  serve (r :: reqs) st =
    (((r, (handle r st).1) :: (serve reqs (handle r st).2).1),
     (serve reqs (handle r st).2).2).
Proof.
  simpl. destruct (handle r st) as [res st']. simpl.
  by destruct (serve reqs st').
Qed.

Lemma serve_app reqs1 reqs2 st :
  serve (reqs1 ++ reqs2) st =
    ((serve reqs1 st).1 ++ (serve reqs2 (serve reqs1 st).2).1,
     (serve reqs2 (serve reqs1 st).2).2).
Proof.
  revert st. induction reqs1 as [|r reqs1 IH]; intros st.
  - simpl. by destruct (serve reqs2 st).
  - rewrite <- app_comm_cons, !serve_cons, IH. reflexivity.
Qed.

(** ** Invariants along a run *)

Lemma updatedGame_id body g : id (updatedGame body g) = id g.
Proof. by rewrite updatedGame_fields. Qed.

Lemma or_truthy a b : Js.truthy b = true → Js.truthy (Js.or a b) = true.
Proof. intros Hb. unfold Js.or. by destruct (Js.truthy a) eqn:Ha. Qed.

Lemma updatedGame_required body g :
  Js.truthy (title g) = true ∧ Js.truthy (platform g) = true →
  Js.truthy (title (updatedGame body g)) = true ∧
  Js.truthy (platform (updatedGame body g)) = true.
Proof. intros [Ht Hp]. rewrite updatedGame_fields. simpl. auto using or_truthy. Qed.

Lemma ids_insert_updated body (l : list Game) i g :
  l !! i = Some g → id <$> <[i := updatedGame body g]> l = id <$> l.
Proof.
  intros Hi. rewrite list_fmap_insert, updatedGame_id.
  apply list_insert_id. by rewrite list_lookup_fmap, Hi.
Qed.

Lemma transition_idsOk st r res st' :
  transition st r res st' → idsOk st → idsOk st'.
Proof.
  intros Ht [Hc Hb Hd].
  destruct Ht as [r res _ _|body g Hid _ _|param body i g Hi|param i g Hi].
  - by split.
  - split; simpl; [lia| |].
    + apply Forall_app. split.
      * eapply Forall_impl; [exact Hb|]. simpl. intros; lia.
      * apply Forall_singleton. lia.
    + rewrite fmap_app. apply NoDup_app. split_and!; [done| |apply NoDup_singleton].
      intros x Hx [= ->]%list_elem_of_singleton.
      apply list_elem_of_fmap in Hx as (g' & Heq & Hin).
      rewrite Forall_forall in Hb. specialize (Hb g' Hin). lia.
  - split; simpl; [done| |].
    + apply Forall_insert; [done|]. rewrite updatedGame_id.
      rewrite Forall_forall in Hb. apply Hb. by eapply list_elem_of_lookup_2.
    + by rewrite ids_insert_updated.
  - split; simpl; [done| |].
    + by apply Forall_delete.
    + apply (sublist_NoDup _ (id <$> games st)); [exact Hd|].
      apply fmap_sublist, sublist_delete.
Qed.

Lemma transition_requiredPresent st r res st' :
  transition st r res st' → requiredPresent st → requiredPresent st'.
Proof.
  unfold requiredPresent.
  intros [r0 res0 _ _|body g _ Ht Hp|param body i g Hi|param i g Hi] H; simpl.
  - done.
  - apply Forall_app. split; [done|]. by apply Forall_singleton.
  - apply Forall_insert; [done|]. apply updatedGame_required.
    rewrite Forall_forall in H. apply H. by eapply list_elem_of_lookup_2.
  - by apply Forall_delete.
Qed.

Lemma serve_idsOk reqs st : idsOk st → idsOk (serve reqs st).2.
Proof.
  revert st. induction reqs as [|r reqs IH]; intros st H; [done|].
  rewrite serve_cons. simpl. apply IH.
  eapply transition_idsOk; [apply handle_transition|done].
Qed.

Lemma serve_requiredPresent reqs st :
  requiredPresent st → requiredPresent (serve reqs st).2.
Proof.
  revert st. induction reqs as [|r reqs IH]; intros st H; [done|].
  rewrite serve_cons. simpl. apply IH.
  eapply transition_requiredPresent; [apply handle_transition|done].
Qed.

Lemma initial_idsOk : idsOk initial.
Proof. split; simpl; [lia|constructor|constructor]. Qed.

Lemma reachable_idsOk st : reachable st → idsOk st.
Proof. intros [reqs <-]. apply serve_idsOk, initial_idsOk. Qed.

Lemma reachable_requiredPresent st : reachable st → requiredPresent st.
Proof. intros [reqs <-]. apply serve_requiredPresent. constructor. Qed.

Lemma created_cons e log :
  created (e :: log) =
    match createdGame e with Some g => g :: created log | None => created log end.
Proof. reflexivity. Qed.

Lemma deletes_cons e log :
  deletes (e :: log) = if deleteSucceeded e then S (deletes log) else deletes log.
Proof.
  unfold deletes. destruct (deleteSucceeded e) eqn:E.
  - by rewrite filter_cons_True.
  - rewrite filter_cons_False; [done|]. by rewrite E.
Qed.

(** What a run does to the counter, to the stored ids and to the number of
    stored records, from any store. *)
Lemma serve_trace reqs st :
  let log := (serve reqs st).1 in
  let st' := (serve reqs st).2 in
  id <$> created log = seqZ (currentId st) (Z.of_nat (length (created log))) ∧
  currentId st' = currentId st + Z.of_nat (length (created log)) ∧
  (id <$> games st') `sublist_of` (id <$> games st) ++ (id <$> created log) ∧
  (length (games st') + deletes log = length (games st) + length (created log))%nat.
Proof.
  revert st. induction reqs as [|r reqs IH]; intros st.
  - simpl. rewrite app_nil_r. split_and!; [done|lia|done|done].
  - rewrite serve_cons. cbv zeta. simpl fst. simpl snd.
    specialize (IH (handle r st).2). cbv zeta in IH.
    destruct IH as (IH1 & IH2 & IH3 & IH4).
    set (log := (serve reqs (handle r st).2).1) in *.
    set (st'' := (serve reqs (handle r st).2).2) in *.
    clearbody log st''.
    rewrite created_cons, deletes_cons.
    destruct (handle_transition r st) as [r res Hc Hd|body g Hid _ _|param body i g Hi|param i g Hi].
    + rewrite Hc, Hd. done.
    + simpl in *.
      split_and!.
      * rewrite (seqZ_cons (currentId st)) by lia. f_equal; [done|].
        etrans; [exact IH1|]. f_equal; lia.
      * lia.
      * rewrite fmap_app, <- app_assoc in IH3. exact IH3.
      * rewrite length_app in IH4. simpl in *. lia.
    + simpl in *.
      rewrite ids_insert_updated in IH3 by done.
      rewrite length_insert in IH4. done.
    + simpl in *.
      split_and!; [done|done| |].
      * etrans; [exact IH3|]. apply sublist_app; [|done].
        apply fmap_sublist, sublist_delete.
      * rewrite length_delete in IH4 by done.
        apply lookup_lt_Some in Hi. lia.
Qed.

(** ** [parseInt] on strings that are not numbers *)

Lemma parseInt_NaN s : startsNonNumeric s → Js.parseInt s = None.
Proof.
  destruct s as [|a s]; [done|].
  simpl. intros (Hlt & Hws & Hsp & Hplus & Hminus & Hdig).
  assert (Js.trimStart (String a s) = String a s) as Htrim.
  { simpl. unfold Js.isAsciiWhiteSpace, Js.isWhiteSpace2, Js.isWhiteSpace3.
    replace ((9 <=? Js.byte_of a) && (Js.byte_of a <=? 13) || (Js.byte_of a =? 32))
      with false by (symmetry; lia).
    destruct s as [|b s]; [done|].
    replace (Js.byte_of a =? 194) with false by (symmetry; lia). simpl.
    destruct s as [|c s]; [done|].
    replace (Js.byte_of a =? 225) with false by (symmetry; lia).
    replace (Js.byte_of a =? 226) with false by (symmetry; lia).
    replace (Js.byte_of a =? 227) with false by (symmetry; lia).
    replace (Js.byte_of a =? 239) with false by (symmetry; lia).
    done. }
  unfold Js.parseInt. rewrite Htrim.
  assert (Js.stripSign (String a s) = (1, String a s)) as ->.
  { unfold Js.stripSign.
    destruct (decide (a = "-"%char)) as [->|]; [by destruct Hminus|].
    destruct (decide (a = "+"%char)) as [->|]; [by destruct Hplus|].
    by repeat case_match. }
  assert (Js.stripPrefix (String a s) = (10, String a s)) as ->.
  { unfold Js.stripPrefix.
    destruct (decide (a = "0"%char)) as [->|]; [exfalso; apply Hdig; by compute|].
    by repeat case_match. }
  simpl. unfold Js.radixDigit, Js.digitValue.
  repeat case_match; simplify_eq; try done; lia.
Qed.

(** ** [parseInt] reads back a decimal numeral *)

Lemma radixDigit_digitChar d :
  0 ≤ d ≤ 9 → Js.radixDigit 10 (digitChar d) = Some d.
Proof.
  intros H.
  assert (d = 0 ∨ d = 1 ∨ d = 2 ∨ d = 3 ∨ d = 4 ∨ d = 5 ∨ d = 6 ∨ d = 7 ∨ d = 8 ∨ d = 9)
    as Hd by lia.
  destruct_or!; subst d; reflexivity.
Qed.

Lemma byte_of_digitChar d : 0 ≤ d ≤ 9 → Js.byte_of (digitChar d) = 48 + d.
Proof.
  intros H.
  assert (d = 0 ∨ d = 1 ∨ d = 2 ∨ d = 3 ∨ d = 4 ∨ d = 5 ∨ d = 6 ∨ d = 7 ∨ d = 8 ∨ d = 9)
    as Hd by lia.
  destruct_or!; subst d; reflexivity.
Qed.

Lemma mod10_digit n : 0 ≤ n `mod` 10 ≤ 9.
Proof. pose proof (Z.mod_pos_bound n 10). lia. Qed.

Lemma digitChar_ne d a :
  0 ≤ d ≤ 9 → ¬ (48 ≤ Js.byte_of a ≤ 57) → digitChar d ≠ a.
Proof. intros Hd Ha <-. rewrite byte_of_digitChar in Ha by done. lia. Qed.

Lemma parseDigits_digitChar m d s :
  0 ≤ d ≤ 9 →
  Js.parseDigits 10 m (String (digitChar d) s) =
    Js.parseDigits 10 (Some (10 * default 0 m + d)) s.
Proof. intros H. simpl. by rewrite radixDigit_digitChar. Qed.

Lemma parseDigits_toDigits fuel n acc :
  0 ≤ n < 10 ^ Z.of_nat fuel → (1 ≤ fuel)%nat →
  Js.parseDigits 10 None (toDigits fuel n acc) = Js.parseDigits 10 (Some n) acc.
Proof.
  revert n acc. induction fuel as [|fuel IH]; intros n acc Hn Hfuel; [lia|].
  simpl toDigits. destruct (n <? 10) eqn:Hlt.
  - rewrite Z.mod_small by lia.
    rewrite parseDigits_digitChar by lia. f_equal; f_equal; simpl; lia.
  - assert (10 ≤ n) by lia.
    assert (1 ≤ fuel)%nat.
    { destruct fuel; [|lia]. simpl in Hn. lia. }
    rewrite IH; [|split; [apply Z.div_pos; lia|]|done].
    + rewrite parseDigits_digitChar by apply mod10_digit.
      f_equal; f_equal; simpl. rewrite (Z.div_mod n 10) at 3 by lia. lia.
    + apply Z.div_lt_upper_bound; [lia|].
      rewrite Nat2Z.inj_succ, Z.pow_succ_r in Hn by lia. lia.
Qed.

Lemma toDigits_digitsAhead fuel n acc :
  0 ≤ n →
  (acc = ""%string ∨ ∃ d' rest', 0 ≤ d' ≤ 9 ∧ acc = String (digitChar d') rest') →
  digitsAhead (toDigits (S fuel) n acc).
Proof.
  revert n acc. induction fuel as [|fuel IH]; intros n acc Hn Hacc.
  - simpl. exists (n mod 10), acc.
    split; [apply mod10_digit|]. by destruct (n <? 10).
  - change (toDigits (S (S fuel)) n acc)
      with (if n <? 10 then String (digitChar (n mod 10)) acc
            else toDigits (S fuel) (n / 10) (String (digitChar (n mod 10)) acc)).
    destruct (n <? 10).
    + exists (n mod 10), acc. split; [apply mod10_digit|done].
    + apply IH; [apply Z.div_pos; lia|]. right.
      exists (n mod 10), acc. split; [apply mod10_digit|done].
Qed.

Lemma parseInt_digitsAhead s :
  digitsAhead s → Js.parseInt s = Js.parseDigits 10 None s.
Proof.
  intros (d & rest & Hd & -> & Hrest).
  pose proof (byte_of_digitChar d Hd) as Hb.
  assert (Js.trimStart (String (digitChar d) rest) = String (digitChar d) rest) as Htrim.
  { simpl. unfold Js.isAsciiWhiteSpace, Js.isWhiteSpace2, Js.isWhiteSpace3.
    rewrite Hb.
    replace ((9 <=? 48 + d) && (48 + d <=? 13) || (48 + d =? 32))
      with false by (symmetry; lia).
    destruct rest as [|b rest]; [done|].
    replace (48 + d =? 194) with false by (symmetry; lia). simpl.
    destruct rest as [|c rest]; [done|].
    replace (48 + d =? 225) with false by (symmetry; lia).
    replace (48 + d =? 226) with false by (symmetry; lia).
    replace (48 + d =? 227) with false by (symmetry; lia).
    replace (48 + d =? 239) with false by (symmetry; lia).
    done. }
  unfold Js.parseInt. rewrite Htrim.
  assert (Js.stripSign (String (digitChar d) rest) = (1, String (digitChar d) rest)) as ->.
  { unfold Js.stripSign.
    destruct (decide (digitChar d = "-"%char)) as [E|].
    { exfalso. apply (digitChar_ne d "-"%char Hd); [|exact E].
      change (Js.byte_of "-"%char) with 45. lia. }
    destruct (decide (digitChar d = "+"%char)) as [E|].
    { exfalso. apply (digitChar_ne d "+"%char Hd); [|exact E].
      change (Js.byte_of "+"%char) with 43. lia. }
    by repeat case_match. }
  assert (Js.stripPrefix (String (digitChar d) rest) = (10, String (digitChar d) rest)) as ->.
  { destruct Hrest as [->|(d' & rest' & Hd' & ->)].
    - unfold Js.stripPrefix. by repeat case_match.
    - pose proof (byte_of_digitChar d' Hd') as Hb'.
      unfold Js.stripPrefix.
      destruct (decide (digitChar d' = "x"%char)) as [E|].
      { exfalso. apply (digitChar_ne d' "x"%char Hd'); [|exact E].
        change (Js.byte_of "x"%char) with 120. lia. }
      destruct (decide (digitChar d' = "X"%char)) as [E|].
      { exfalso. apply (digitChar_ne d' "X"%char Hd'); [|exact E].
        change (Js.byte_of "X"%char) with 88. lia. }
      by repeat case_match. }
  destruct (Js.parseDigits 10 None (String (digitChar d) rest)) as [m|]; [|done].
  f_equal. lia.
Qed.

(** For every non-negative integer, and so for every id the store gives out,
    there is a path parameter that parses to it. *)
Lemma parseInt_decimal n : 0 ≤ n → Js.parseInt (decimal n) = Some n.
Proof.
  intros Hn. unfold decimal.
  rewrite parseInt_digitsAhead by (apply toDigits_digitsAhead; auto).
  rewrite parseDigits_toDigits; [done| |lia].
  split; [done|].
  destruct (decide (n = 0)) as [->|]; [done|].
  rewrite Nat2Z.inj_succ, Z2Nat.id by apply Z.log2_nonneg.
  pose proof (Z.log2_spec n ltac:(lia)) as [_ Hlog].
  eapply Z.lt_le_trans; [exact Hlog|].
  apply Z.pow_le_mono_l. lia.
Qed.

(** Every id given out in a run is below the counter the run ends with. *)
Lemma ids_below_counter reqs :
  Forall (λ g, id g < currentId (serve reqs initial).2) (created (serve reqs initial).1) ∧
  NoDup (id <$> created (serve reqs initial).1).
Proof.
  destruct (serve_trace reqs initial) as (Hseq & Hcnt & _ & _).
  simpl in Hseq, Hcnt. split.
  - apply Forall_forall. intros g Hg.
    assert (id g ∈ seqZ 1 (Z.of_nat (length (created (serve reqs initial).1)))) as Hin.
    { rewrite <- Hseq. by apply list_elem_of_fmap_2. }
    apply elem_of_seqZ in Hin. lia.
  - rewrite Hseq. apply NoDup_seqZ.
Qed.

(** A run of [n] requests leaves the counter between 1 and [n + 1]: as long
    as fewer than 2^53 requests were served, the counter is an integer that a
    JavaScript number holds exactly. *)
Lemma counter_range reqs :
  1 ≤ currentId (serve reqs initial).2 ≤ 1 + Z.of_nat (length reqs).
Proof.
  destruct (serve_trace reqs initial) as (_ & Hcnt & _ & _). simpl in Hcnt.
  assert (∀ log, length (created log) ≤ length log)%nat as Hle.
  { induction log as [|e log IH]; [done|].
    rewrite created_cons. destruct (createdGame e); simpl; lia. }
  assert (∀ rs st, length (serve rs st).1 = length rs) as Hlen.
  { induction rs as [|r rs IH]; intros st; [done|].
    rewrite serve_cons. simpl. by rewrite IH. }
  specialize (Hle (serve reqs initial).1). rewrite Hlen in Hle. lia.
Qed.

(** * The store's contract *)

(** ** Identifiers *)

(** C1.  In every run of the server from the empty store with the counter at
    1, the ids given out by the successful creates are 1, 2, 3, ... in the
    order of creation, so no two records ever created share an id; the
    records in the store carry, in the same order, ids that were given out;
    every id given out is below the counter, so no later create can take it
    again.  A delete leaves the counter alone and only takes a record out:
    the records that remain are the ones that were there, unchanged and in
    the same order. *)
Theorem ids_unique_never_reused (reqs : list Request) :
  let log := (serve reqs initial).1 in
  let st := (serve reqs initial).2 in
  id <$> created log = seqZ 1 (Z.of_nat (length (created log))) ∧
  NoDup (id <$> created log) ∧
  id <$> games st `sublist_of` id <$> created log ∧
  Forall (λ g, id g < currentId st) (created log) ∧
  ∀ param, currentId (delete_games_id param st).2 = currentId st ∧
           games (delete_games_id param st).2 `sublist_of` games st.
Proof.
  intros log st.
  destruct (serve_trace reqs initial) as (Hseq & Hcnt & Hsub & _).
  fold log in Hseq, Hcnt, Hsub. fold st in Hcnt, Hsub. simpl in Hseq, Hcnt, Hsub.
  split_and!.
  - exact Hseq.
  - apply ids_below_counter.
  - exact Hsub.
  - apply ids_below_counter.
  - intros param.
    destruct (list_find (idIs (Js.parseInt param)) (games st)) as [[i g]|] eqn:E.
    + rewrite (delete_games_id_found _ _ _ _ E). simpl.
      split; [done|apply sublist_delete].
    + rewrite find_None in E. by rewrite (delete_games_id_missing _ _ E).
Qed.

(** ** Create *)

(** C3.  A create whose [title] and [platform] are both truthy (for strings:
    present and not empty) answers 201 with the new record, whose id is the
    counter's value; the counter goes up by one and the record is put at the
    end of the collection, behind the records already there.  In a run from
    the empty store the id is new: every id given out before is smaller. *)
Theorem create_succeeds (body : gmap string Js.Value) (st : Store) :
  Js.truthy (Js.prop body "title") = true →
  Js.truthy (Js.prop body "platform") = true →
  let newGame :=
    {| id := currentId st;
       title := Js.prop body "title";
       platform := Js.prop body "platform";
       releaseYear :=
         if Js.truthy (Js.prop body "releaseYear")
         then Js.prop body "releaseYear" else Js.Null;
       imageUrl :=
         if Js.truthy (Js.prop body "imageUrl")
         then Js.prop body "imageUrl" else Js.Null |} in
  post_games body st =
    ({| status := 201; payload := OneGame newGame |},
     {| games := games st ++ [newGame]; currentId := currentId st + 1 |}) ∧
  ∀ reqs, (serve reqs initial).2 = st →
    Forall (λ g, id g < id newGame) (created (serve reqs initial).1) ∧
    Forall (λ g, id g < id newGame) (games st).
Proof.
  intros Ht Hp newGame. split.
  - apply (post_games_created body st Ht Hp).
  - intros reqs Hst. split.
    + destruct (ids_below_counter reqs) as [H _]. by rewrite Hst in H.
    + assert (idsOk st) as [_ Hb _] by (apply reachable_idsOk; by exists reqs).
      eapply Forall_impl; [exact Hb|]. simpl. intros; lia.
Qed.

(** C4.  A create whose [title] or [platform] is falsy (missing, [null] or
    the empty string among others) answers 400 with the error message and
    leaves the store as it was: the same records, hence a listing of the same
    length, and the same counter. *)
Theorem create_rejects_missing_fields (body : gmap string Js.Value) (st : Store) :
  Js.truthy (Js.prop body "title") = false ∨
  Js.truthy (Js.prop body "platform") = false →
  post_games body st = (missingFields, st) ∧
  status (post_games body st).1 = 400 ∧
  games (post_games body st).2 = games st ∧
  currentId (post_games body st).2 = currentId st ∧
  get_games (post_games body st).2 = get_games st.
Proof.
  intros H. rewrite (post_games_rejected body st H). by split_and!.
Qed.

(** ** Update *)

(** C2.  When some stored record has the id the path parameter parses to,
    the update acts on the first such record, [game] at position [index]: it
    answers 200 with the record that has the same id and, field by field, the
    body's value if that value is truthy and the old value otherwise, and it
    leaves that record at position [index]; every other position of the
    collection and the counter are untouched.  A field whose value in the
    body is falsy (absent, empty string, zero, ...) keeps its old value. *)
Theorem update_overwrites_truthy_fields
    (param : string) (body : gmap string Js.Value) (st : Store) :
  (∃ g, g ∈ games st ∧ Js.parseInt param = Some (id g)) →
  ∃ index game,
    games st !! index = Some game ∧
    Js.parseInt param = Some (id game) ∧
    (∀ j g', games st !! j = Some g' → (j < index)%nat →
             Js.parseInt param ≠ Some (id g')) ∧
    let pick (v old : Js.Value) := if Js.truthy v then v else old in
    let game' :=
      {| id := id game;
         title := pick (Js.prop body "title") (title game);
         platform := pick (Js.prop body "platform") (platform game);
         releaseYear := pick (Js.prop body "releaseYear") (releaseYear game);
         imageUrl := pick (Js.prop body "imageUrl") (imageUrl game) |} in
    put_games_id param body st =
      (json (OneGame game'),
       {| games := <[index := game']> (games st); currentId := currentId st |}) ∧
    (∀ j, j ≠ index → <[index := game']> (games st) !! j = games st !! j) ∧
    (Js.truthy (Js.prop body "title") = false → title game' = title game) ∧
    (Js.truthy (Js.prop body "platform") = false → platform game' = platform game) ∧
    (Js.truthy (Js.prop body "releaseYear") = false →
       releaseYear game' = releaseYear game) ∧
    (Js.truthy (Js.prop body "imageUrl") = false → imageUrl game' = imageUrl game).
Proof.
  intros (g & Hin & Hid).
  destruct (find_elem _ _ _ Hin Hid) as (index & game & Hfind).
  exists index, game.
  destruct (find_Some _ _ _ _ Hfind) as (Hi & Hn & Hfirst).
  split_and!; [done..|]. intros pick game'.
  split_and!.
  - rewrite (put_games_id_found _ _ _ _ _ Hfind), updatedGame_fields. reflexivity.
  - intros j Hj. by apply list_lookup_insert_ne.
  - simpl. unfold pick. by intros ->.
  - simpl. unfold pick. by intros ->.
  - simpl. unfold pick. by intros ->.
  - simpl. unfold pick. by intros ->.
Qed.

(** ** Delete *)

(** C5.  In a store the server can be in: a delete whose parameter parses to
    no stored id answers 404 and changes nothing; a delete whose parameter
    parses to the id of a stored record [g] answers 200 with [g] and takes
    exactly the position of [g] out of the collection.  No record with that
    id is left, and a lookup of the same id right afterwards answers 404. *)
Theorem delete_then_get_not_found (param : string) (st : Store) :
  reachable st →
  ((∀ g, g ∈ games st → Js.parseInt param ≠ Some (id g)) →
   delete_games_id param st = (notFound, st)) ∧
  (∀ g, g ∈ games st → Js.parseInt param = Some (id g) →
   ∃ index,
     games st !! index = Some g ∧
     let st' := {| games := delete index (games st); currentId := currentId st |} in
     delete_games_id param st = (json (OneGame g), st') ∧
     (∀ g', g' ∈ games st' → id g' ≠ id g) ∧
     ∀ param', Js.parseInt param' = Some (id g) →
               get_games_id param' st' = (notFound, st')).
Proof.
  intros [_ _ Hnd]%reachable_idsOk. split.
  - apply delete_games_id_missing.
  - intros g Hin Hid.
    apply list_elem_of_lookup in Hin as [index Hi]. exists index.
    split; [done|]. intros st'.
    pose proof (find_unique _ _ _ _ Hnd Hi Hid) as Hfind.
    pose proof (delete_ids_gone _ _ _ Hnd Hi) as Hgone.
    split_and!.
    + apply (delete_games_id_found _ _ _ _ Hfind).
    + exact Hgone.
    + intros param' Hp. apply get_games_id_missing.
      intros g' Hg'. rewrite Hp. intros [= Heq]. by apply (Hgone g' Hg').
Qed.

(** ** Required fields *)

(** C6.  If [title] and [platform] of every stored record are truthy, they
    still are after any sequence of requests, whatever the requests are; in
    particular neither is ever the empty string, [null] or missing.  The
    empty store satisfies the premise, so this holds of every store the
    server can be in. *)
Theorem required_fields_stay_nonempty (reqs : list Request) (st : Store) :
  requiredPresent st →
  ∀ g, g ∈ games (serve reqs st).2 →
    (Js.truthy (title g) = true ∧ Js.truthy (platform g) = true) ∧
    (title g ≠ Js.Str "" ∧ title g ≠ Js.Undefined ∧ title g ≠ Js.Null) ∧
    (platform g ≠ Js.Str "" ∧ platform g ≠ Js.Undefined ∧ platform g ≠ Js.Null).
Proof.
  intros H%(serve_requiredPresent reqs) g Hg.
  unfold requiredPresent in H. rewrite Forall_forall in H.
  destruct (H g Hg) as [Ht Hp].
  destruct (truthy_nonempty _ Ht) as (? & ? & ? & _).
  destruct (truthy_nonempty _ Hp) as (? & ? & ? & _).
  done.
Qed.

(** ** Lookup *)

(** C7.  In a store the server can be in, when a create answers 201 its
    payload is a record [g], and a lookup made on the resulting store with a
    parameter that parses to the id of [g], the decimal numeral of the id for
    one, answers 200 with [g] itself.  In any store, a lookup answers 200
    with the first stored record whose id the parameter parses to, or 404
    when there is none; it never changes the store. *)
Theorem get_after_create
    (st : Store) (body : gmap string Js.Value) (res : Response) (st' : Store) :
  reachable st →
  post_games body st = (res, st') →
  status res = 201 →
  (∃ g, payload res = OneGame g ∧
        (∀ param, Js.parseInt param = Some (id g) →
                  get_games_id param st' = (json (OneGame g), st')) ∧
        get_games_id (decimal (id g)) st' = (json (OneGame g), st')) ∧
  (∀ (s : Store) param,
     (∃ i g, games s !! i = Some g ∧ Js.parseInt param = Some (id g) ∧
             (∀ j g', games s !! j = Some g' → (j < i)%nat →
                      Js.parseInt param ≠ Some (id g')) ∧
             get_games_id param s = (json (OneGame g), s)) ∨
     ((∀ g, g ∈ games s → Js.parseInt param ≠ Some (id g)) ∧
      get_games_id param s = (notFound, s))).
Proof.
  intros Hreach Hpost Hstatus. split.
  - assert (idsOk st') as [_ _ Hnd].
    { pose proof (transition_idsOk _ _ _ _ (handle_transition (POST_games body) st)
                    (reachable_idsOk _ Hreach)) as H.
      simpl in H. by rewrite Hpost in H. }
    destruct (Js.truthy (Js.prop body "title")) eqn:Ht;
      [destruct (Js.truthy (Js.prop body "platform")) eqn:Hp|].
    + rewrite (post_games_created body st Ht Hp) in Hpost.
      injection Hpost as <- <-. eexists. split; [reflexivity|].
      match goal with |- ?A ∧ _ => assert A as Hget end.
      { intros param Hparam.
        apply (get_games_id_found _ _ (length (games st))).
        apply find_unique; [done| |done]. simpl.
        by rewrite lookup_app_r, Nat.sub_diag by lia. }
      split; [exact Hget|].
      apply Hget, parseInt_decimal. simpl.
      apply reachable_idsOk in Hreach as [Hc _ _]. lia.
    + rewrite post_games_rejected in Hpost by auto.
      injection Hpost as <- <-. discriminate Hstatus.
    + rewrite post_games_rejected in Hpost by auto.
      injection Hpost as <- <-. discriminate Hstatus.
  - intros s param.
    destruct (list_find (idIs (Js.parseInt param)) (games s)) as [[i g]|] eqn:E.
    + left. exists i, g. destruct (find_Some _ _ _ _ E) as (Hi & Hn & Hfirst).
      split_and!; [done..|]. by apply (get_games_id_found _ _ i).
    + right. rewrite find_None in E. split; [done|].
      by apply get_games_id_missing.
Qed.

(** ** Listing *)

(** C8.  A listing answers 200 with the whole collection, in the order of
    the collection, and does not change the store.  After any run from the
    empty store the stored ids are, in order, among the ids given out in the
    order of creation, and the number of stored records is the number of
    creates that answered 201 minus the number of deletes that answered
    200. *)
Theorem list_length_creates_minus_deletes (reqs : list Request) :
  let log := (serve reqs initial).1 in
  let st := (serve reqs initial).2 in
  get_games st = ({| status := 200; payload := GameList (games st) |}, st) ∧
  id <$> games st `sublist_of` id <$> created log ∧
  Z.of_nat (length (games st)) =
    Z.of_nat (length (created log)) - Z.of_nat (deletes log).
Proof.
  intros log st.
  destruct (serve_trace reqs initial) as (_ & _ & Hsub & Hlen).
  fold log in Hsub, Hlen. fold st in Hsub, Hlen. simpl in Hsub, Hlen.
  split_and!; [done|done|lia].
Qed.

(** ** Configuration *)

(** C9.  The second revision reads the port from the environment variable
    [PORT]: when the variable is not set (or set to the empty string) the
    port is 3000, the value the first revision fixes; when it is set to a
    non-empty string the port is that string. *)
Theorem port_default_and_override (env : gmap string string) :
  port = Js.Num 3000 ∧
  (env !! "PORT" = None → PORT env = Js.Num 3000) ∧
  (env !! "PORT" = Some ""%string → PORT env = Js.Num 3000) ∧
  (∀ value, env !! "PORT" = Some value → value ≠ ""%string →
            PORT env = Js.Str value).
Proof.
  unfold PORT. split_and!.
  - reflexivity.
  - by intros ->.
  - by intros ->.
  - intros value -> Hne. simpl. unfold Js.or.
    apply truthy_Str in Hne. by rewrite Hne.
Qed.

(** ** Malformed and unknown ids *)

(** C10.  When the path parameter parses to NaN or to a number that is the
    id of no stored record, lookup, update and delete all answer 404 with the
    same error message and leave the store as it was.  A string that is
    empty or starts with an ASCII character other than white space, a sign or
    a decimal digit parses to NaN.  Whatever the parameter, the three handlers
    answer 200 or 404 and nothing else. *)
Theorem unknown_id_not_found
    (param : string) (body : gmap string Js.Value) (st : Store) :
  (∀ g, g ∈ games st → Js.parseInt param ≠ Some (id g)) →
  (get_games_id param st = (notFound, st) ∧
   put_games_id param body st = (notFound, st) ∧
   delete_games_id param st = (notFound, st)) ∧
  status notFound = 404 ∧
  (∀ s, startsNonNumeric s → Js.parseInt s = None) ∧
  (∀ p b s, status (get_games_id p s).1 ∈ [200; 404] ∧
            status (put_games_id p b s).1 ∈ [200; 404] ∧
            status (delete_games_id p s).1 ∈ [200; 404]).
Proof.
  intros H. split_and!.
  - by apply get_games_id_missing.
  - by apply put_games_id_missing.
  - by apply delete_games_id_missing.
  - reflexivity.
  - apply parseInt_NaN.
  - intros p b s.
    destruct (list_find (idIs (Js.parseInt p)) (games s)) as [[i g]|] eqn:E.
    + rewrite (get_games_id_found _ _ _ _ E), (put_games_id_found _ _ _ _ _ E),
        (delete_games_id_found _ _ _ _ E). simpl. set_solver.
    + rewrite find_None in E.
      rewrite (get_games_id_missing _ _ E), (put_games_id_missing _ b _ E),
        (delete_games_id_missing _ _ E). simpl. set_solver.
Qed.

(** * The contract on concrete requests *)

Lemma twoGames_eq : twoGames = {| games := [haloGame; marioGame]; currentId := 3 |}.
Proof. reflexivity. Qed.

Lemma twoGames_reachable : reachable twoGames.
Proof. by exists [POST_games halo; POST_games mario]. Defined.

(** The scenario of the specification: two creates, the delete of the first
    record, a lookup of the deleted id and a listing. *)
Example scenario :
  let run := serve [POST_games halo; POST_games mario; DELETE_games_id "1";
                    GET_games_id "1"; GET_games] initial in
  snd <$> run.1 =
    [ {| status := 201; payload := OneGame haloGame |};
      {| status := 201; payload := OneGame marioGame |};
      json (OneGame haloGame);
      notFound;
      json (GameList [marioGame]) ] ∧
  run.2 = {| games := [marioGame]; currentId := 3 |}.
Proof. split; reflexivity. Qed.

Example parseInt_examples :
  Js.parseInt "12" = Some 12 ∧ Js.parseInt "007" = Some 7 ∧
  Js.parseInt " 42" = Some 42 ∧ Js.parseInt "-5" = Some (-5) ∧
  Js.parseInt "1abc" = Some 1 ∧ Js.parseInt "1.9" = Some 1 ∧
  Js.parseInt "0x1F" = Some 31 ∧ Js.parseInt "abc" = None ∧
  Js.parseInt "" = None ∧ Js.parseInt "-" = None ∧ Js.parseInt "0x" = None.
Proof. by split_and!. Qed.

Lemma create_succeeds_witness :
  Js.truthy (Js.prop halo "title") = true ∧
  Js.truthy (Js.prop halo "platform") = true ∧
  post_games halo initial =
    ({| status := 201; payload := OneGame haloGame |},
     {| games := [haloGame]; currentId := 2 |}).
Proof.
  split_and!; [reflexivity..|].
  exact (proj1 (create_succeeds halo initial eq_refl eq_refl)).
Defined.

Lemma create_rejects_missing_fields_witness :
  Js.truthy (Js.prop titleOnly "platform") = false ∧
  post_games titleOnly twoGames = (missingFields, twoGames).
Proof.
  split; [reflexivity|].
  exact (proj1 (create_rejects_missing_fields titleOnly twoGames (or_intror eq_refl))).
Defined.

Lemma update_overwrites_truthy_fields_witness :
  ∃ index game,
    games twoGames !! index = Some game ∧
    Js.parseInt "2" = Some (id game) ∧
    put_games_id "2" clearTitle twoGames =
      (json (OneGame (setReleaseYear (Js.Num 1985) game)),
       {| games := <[index := setReleaseYear (Js.Num 1985) game]> (games twoGames);
          currentId := 3 |}).
Proof.
  assert (∃ g, g ∈ games twoGames ∧ Js.parseInt "2" = Some (id g)) as H.
  { exists marioGame. split; [|reflexivity]. apply list_elem_of_further, list_elem_of_here. }
  destruct (update_overwrites_truthy_fields "2" clearTitle twoGames H)
    as (index & game & Hi & Hn & _ & Heq & _).
  exists index, game. split_and!; [exact Hi|exact Hn|exact Heq].
Defined.

Lemma delete_then_get_not_found_witness :
  reachable twoGames ∧
  ∃ index,
    games twoGames !! index = Some haloGame ∧
    delete_games_id "1" twoGames =
      (json (OneGame haloGame),
       {| games := delete index (games twoGames); currentId := 3 |}) ∧
    get_games_id "1" {| games := delete index (games twoGames); currentId := 3 |} =
      (notFound, {| games := delete index (games twoGames); currentId := 3 |}).
Proof.
  split; [exact twoGames_reachable|].
  destruct (delete_then_get_not_found "1" twoGames twoGames_reachable) as [_ H].
  destruct (H haloGame (list_elem_of_here _ _) eq_refl) as (index & Hi & Hdel & _ & Hget).
  exists index. split_and!; [exact Hi|exact Hdel|exact (Hget "1"%string eq_refl)].
Defined.

Lemma required_fields_stay_nonempty_witness :
  requiredPresent initial ∧
  ∀ g, g ∈ games (serve [POST_games halo; PUT_games_id "1" clearTitle] initial).2 →
       title g ≠ Js.Str "" ∧ platform g ≠ Js.Str "".
Proof.
  split; [apply Forall_nil_2|].
  intros g Hg.
  destruct (required_fields_stay_nonempty
              [POST_games halo; PUT_games_id "1" clearTitle] initial
              (Forall_nil_2 _) g Hg) as (_ & (Ht & _) & (Hp & _)).
  split; [exact Ht|exact Hp].
Defined.

Lemma get_after_create_witness :
  reachable twoGames ∧
  ∃ g, payload (post_games halo twoGames).1 = OneGame g ∧
       get_games_id "3" (post_games halo twoGames).2 =
         (json (OneGame g), (post_games halo twoGames).2).
Proof.
  split; [exact twoGames_reachable|].
  destruct (get_after_create twoGames halo
              (post_games halo twoGames).1 (post_games halo twoGames).2
              twoGames_reachable eq_refl eq_refl) as [(g & Hg & Hget & _) _].
  exists g. split; [exact Hg|]. apply Hget.
  vm_compute in Hg. injection Hg as <-. reflexivity.
Defined.

Lemma port_default_and_override_witness :
  PORT ∅ = Js.Num 3000 ∧ PORT {[ "PORT" := "8080" ]}%string = Js.Str "8080".
Proof.
  split.
  - exact (proj1 (proj2 (port_default_and_override ∅)) eq_refl).
  - apply (proj2 (proj2 (proj2 (port_default_and_override {[ "PORT" := "8080" ]}%string)))).
    + reflexivity.
    + discriminate.
Defined.

Lemma unknown_id_not_found_witness :
  (∀ g, g ∈ games twoGames → Js.parseInt "abc" ≠ Some (id g)) ∧
  get_games_id "abc" twoGames = (notFound, twoGames) ∧
  put_games_id "abc" halo twoGames = (notFound, twoGames) ∧
  delete_games_id "abc" twoGames = (notFound, twoGames).
Proof.
  assert (∀ g, g ∈ games twoGames → Js.parseInt "abc" ≠ Some (id g)) as H.
  { intros g _. discriminate. }
  split; [exact H|].
  exact (proj1 (unknown_id_not_found "abc" halo twoGames H)).
Defined.

(** * Further properties of the handlers *)

(** ** Requests that only read *)

Lemma readOnly_store r st : readOnly r = true → (handle r st).2 = st.
Proof.
  destruct r as [| |param| | |]; try done. intros _. simpl.
  unfold get_games_id. by repeat case_match.
Qed.

(** X1.  Listings, lookups and banner requests can be taken out of a run, or
    put into it anywhere, without changing the store the run ends with or
    the answer to any other request. *)
Theorem read_only_requests_transparent (reqs : list Request) (st : Store) :
  serve (filter (λ r, readOnly r = false) reqs) st =
    (filter (λ e, readOnly e.1 = false) (serve reqs st).1, (serve reqs st).2).
Proof.
  revert st. induction reqs as [|r reqs IH]; intros st; [done|].
  rewrite (serve_cons r reqs st). cbn [fst snd].
  destruct (readOnly r) eqn:Hr.
  - rewrite filter_cons_False by (rewrite Hr; done).
    rewrite (filter_cons_False _ (r, _)) by (simpl; rewrite Hr; done).
    rewrite (readOnly_store r st Hr). apply IH.
  - rewrite filter_cons_True by done.
    rewrite (filter_cons_True _ (r, _)) by done.
    rewrite serve_cons, IH. reflexivity.
Qed.

(** ** Failures *)

(** X2.  Every answer has status 200, 201, 400 or 404.  The status is 400 or
    404 exactly when the payload is an error message, and then the store is
    left as it was.  No handler ever answers with [undefined]: the element
    [DELETE] takes out of the spliced array is always there. *)
Theorem failures_have_no_effect (r : Request) (st : Store) :
  status (handle r st).1 ∈ [200; 201; 400; 404] ∧
  payload (handle r st).1 ≠ Nothing ∧
  (isError (payload (handle r st).1) = true ↔
     status (handle r st).1 = 400 ∨ status (handle r st).1 = 404) ∧
  (status (handle r st).1 = 400 ∨ status (handle r st).1 = 404 →
     (handle r st).2 = st).
Proof.
  destruct r as [body| |param|param body|param|]; simpl.
  - destruct (Js.truthy (Js.prop body "title")) eqn:Ht;
      [destruct (Js.truthy (Js.prop body "platform")) eqn:Hp|].
    + rewrite post_games_created by done. simpl.
      split_and!; [set_solver|done|split; [done|intros [|]; done]|intros [|]; done].
    + rewrite post_games_rejected by auto. simpl.
      split_and!; [set_solver|done|split; auto|done].
    + rewrite post_games_rejected by auto. simpl.
      split_and!; [set_solver|done|split; auto|done].
  - split_and!; [set_solver|done|split; [done|intros [|]; done]|done].
  - destruct (list_find (idIs (Js.parseInt param)) (games st)) as [[i g]|] eqn:E.
    + rewrite (get_games_id_found _ _ _ _ E). simpl.
      split_and!; [set_solver|done|split; [done|intros [|]; done]|done].
    + rewrite find_None in E. rewrite (get_games_id_missing _ _ E). simpl.
      split_and!; [set_solver|done|split; auto|done].
  - destruct (list_find (idIs (Js.parseInt param)) (games st)) as [[i g]|] eqn:E.
    + rewrite (put_games_id_found _ _ _ _ _ E). simpl.
      split_and!; [set_solver|done|split; [done|intros [|]; done]|intros [|]; done].
    + rewrite find_None in E. rewrite (put_games_id_missing _ _ _ E). simpl.
      split_and!; [set_solver|done|split; auto|done].
  - destruct (list_find (idIs (Js.parseInt param)) (games st)) as [[i g]|] eqn:E.
    + rewrite (delete_games_id_found _ _ _ _ E). simpl.
      split_and!; [set_solver|done|split; [done|intros [|]; done]|intros [|]; done].
    + rewrite find_None in E. rewrite (delete_games_id_missing _ _ E). simpl.
      split_and!; [set_solver|done|split; auto|done].
  - split_and!; [set_solver|done|split; [done|intros [|]; done]|done].
Qed.

Lemma failures_have_no_effect_witness :
  status (handle (DELETE_games_id "7") twoGames).1 = 404 ∧
  (handle (DELETE_games_id "7") twoGames).2 = twoGames.
Proof.
  split; [reflexivity|].
  apply (failures_have_no_effect (DELETE_games_id "7") twoGames).
  right. reflexivity.
Defined.

(** ** Update *)

Lemma or_idem v old : Js.or v (Js.or v old) = Js.or v old.
Proof. unfold Js.or. by destruct (Js.truthy v) eqn:E; rewrite ?E. Qed.

Lemma updatedGame_idem body g :
  updatedGame body (updatedGame body g) = updatedGame body g.
Proof.
  rewrite (updatedGame_fields body (updatedGame body g)).
  rewrite !(updatedGame_fields body g). simpl. by rewrite !or_idem.
Qed.

Lemma or_falsy v old : Js.truthy v = false → Js.or v old = old.
Proof. unfold Js.or. by intros ->. Qed.

(** The record found stays the first match when it is replaced by a record
    with the same id. *)
Lemma find_insert_same n (l : list Game) i g g' :
  list_find (idIs n) l = Some (i, g) → id g' = id g →
  list_find (idIs n) (<[i := g']> l) = Some (i, g').
Proof.
  intros (Hi & Hn & Hfirst)%find_Some Hid.
  apply list_find_Some. split_and!.
  - apply list_lookup_insert_eq. by eapply lookup_lt_Some.
  - unfold idIs. by rewrite Hid.
  - intros j y Hj Hlt. rewrite list_lookup_insert_ne in Hj by lia.
    by apply (Hfirst j y).
Qed.

(** X3.  An update never changes an id, the order or the number of the
    stored records, or the counter, whatever the body holds (an [id]
    property in the body is not read). *)
Theorem update_keeps_ids (param : string) (body : gmap string Js.Value) (st : Store) :
  id <$> games (put_games_id param body st).2 = id <$> games st ∧
  length (games (put_games_id param body st).2) = length (games st) ∧
  currentId (put_games_id param body st).2 = currentId st.
Proof.
  destruct (list_find (idIs (Js.parseInt param)) (games st)) as [[i g]|] eqn:E.
  - rewrite (put_games_id_found _ _ _ _ _ E). simpl.
    apply find_Some in E as (Hi & _).
    by rewrite (ids_insert_updated body _ _ _ Hi), length_insert.
  - rewrite find_None in E. by rewrite (put_games_id_missing _ _ _ E).
Qed.

(** X4.  Sending the same update a second time changes nothing more: it gets
    the same answer and leaves the same store as the first. *)
Theorem update_idempotent (param : string) (body : gmap string Js.Value) (st : Store) :
  put_games_id param body (put_games_id param body st).2 =
    put_games_id param body st.
Proof.
  destruct (list_find (idIs (Js.parseInt param)) (games st)) as [[i g]|] eqn:E.
  - rewrite (put_games_id_found _ _ _ _ _ E). simpl.
    pose proof (find_insert_same _ _ _ _ (updatedGame body g) E (updatedGame_id body g)) as E'.
    rewrite (put_games_id_found param body
               {| games := <[i := updatedGame body g]> (games st);
                  currentId := currentId st |} i _ E'). simpl.
    by rewrite updatedGame_idem, list_insert_insert_eq.
  - rewrite find_None in E. rewrite (put_games_id_missing _ _ _ E). simpl.
    by apply put_games_id_missing.
Qed.

(** X5.  A lookup made right after an update, with the same parameter,
    answers what the update answered: the updated record, or 404. *)
Theorem lookup_after_update (param : string) (body : gmap string Js.Value) (st : Store) :
  get_games_id param (put_games_id param body st).2 = put_games_id param body st.
Proof.
  destruct (list_find (idIs (Js.parseInt param)) (games st)) as [[i g]|] eqn:E.
  - rewrite (put_games_id_found _ _ _ _ _ E). simpl.
    pose proof (find_insert_same _ _ _ _ (updatedGame body g) E (updatedGame_id body g)) as E'.
    by apply (get_games_id_found _ _ i).
  - rewrite find_None in E. rewrite (put_games_id_missing _ _ _ E). simpl.
    by apply get_games_id_missing.
Qed.

(** X6.  An update whose body has no truthy value for any of the four fields
    (the empty object for one) is a lookup: the same answer, the same
    store. *)
Theorem update_without_fields_is_lookup
    (param : string) (body : gmap string Js.Value) (st : Store) :
  Js.truthy (Js.prop body "title") = false →
  Js.truthy (Js.prop body "platform") = false →
  Js.truthy (Js.prop body "releaseYear") = false →
  Js.truthy (Js.prop body "imageUrl") = false →
  put_games_id param body st = get_games_id param st.
Proof.
  intros Ht Hp Hy Hu.
  destruct (list_find (idIs (Js.parseInt param)) (games st)) as [[i g]|] eqn:E.
  - rewrite (put_games_id_found _ _ _ _ _ E), (get_games_id_found _ _ _ _ E).
    assert (updatedGame body g = g) as ->.
    { rewrite updatedGame_fields, !or_falsy by done. by destruct g. }
    apply find_Some in E as (Hi & _).
    rewrite (list_insert_id _ _ _ Hi). by destruct st.
  - rewrite find_None in E.
    by rewrite (put_games_id_missing _ _ _ E), (get_games_id_missing _ _ E).
Qed.

Lemma update_without_fields_is_lookup_witness :
  put_games_id "2" ∅ twoGames = (json (OneGame marioGame), twoGames).
Proof.
  exact (update_without_fields_is_lookup "2" ∅ twoGames eq_refl eq_refl eq_refl eq_refl).
Defined.

(** ** Writes to one id and lookups of another *)

Lemma get_games_id_response param st :
  (get_games_id param st).1 =
    match snd <$> list_find (idIs (Js.parseInt param)) (games st) with
    | Some g => json (OneGame g)
    | None => notFound
    end.
Proof. unfold get_games_id. by destruct (list_find _ _) as [[i g]|]. Qed.

Lemma find_insert_other m (l : list Game) i g g' :
  l !! i = Some g → ¬ idIs m g → ¬ idIs m g' →
  list_find (idIs m) (<[i := g']> l) = list_find (idIs m) l.
Proof.
  revert i. induction l as [|x l IH]; intros i Hi Hg Hg'; [done|].
  destruct i as [|i]; simpl in *.
  - injection Hi as ->. by rewrite !decide_False.
  - by rewrite (IH i).
Qed.

Lemma find_delete_other m (l : list Game) i g :
  l !! i = Some g → ¬ idIs m g →
  snd <$> list_find (idIs m) (delete i l) = snd <$> list_find (idIs m) l.
Proof.
  revert i. induction l as [|x l IH]; intros i Hi Hg; [done|].
  destruct i as [|i]; simpl in *.
  - injection Hi as ->. rewrite decide_False by done.
    by destruct (list_find (idIs m) l) as [[j y]|].
  - destruct (decide (idIs m x)); [done|].
    specialize (IH i Hi Hg).
    destruct (list_find (idIs m) (delete i l)) as [[j y]|],
             (list_find (idIs m) l) as [[j' y']|]; simpl in *; congruence.
Qed.

Lemma find_snoc_other m (l : list Game) g :
  ¬ idIs m g → list_find (idIs m) (l ++ [g]) = list_find (idIs m) l.
Proof.
  intros Hg. destruct (list_find (idIs m) l) as [[i y]|] eqn:E.
  - by apply list_find_app_l.
  - rewrite list_find_app_r by done. simpl. by rewrite decide_False.
Qed.

(** X7.  A write that goes to one id does not change what a lookup of
    another id answers: an update or a delete through a parameter that
    parses differently, or a create while the counter is not the id looked
    up. *)
Theorem writes_leave_other_ids_alone
    (param param' : string) (body : gmap string Js.Value) (st : Store) :
  Js.parseInt param' ≠ Js.parseInt param →
  (get_games_id param' (put_games_id param body st).2).1 = (get_games_id param' st).1 ∧
  (get_games_id param' (delete_games_id param st).2).1 = (get_games_id param' st).1 ∧
  (Js.parseInt param' ≠ Some (currentId st) →
   (get_games_id param' (post_games body st).2).1 = (get_games_id param' st).1).
Proof.
  intros Hne. rewrite !get_games_id_response. split_and!.
  - destruct (list_find (idIs (Js.parseInt param)) (games st)) as [[i g]|] eqn:E.
    + rewrite (put_games_id_found _ _ _ _ _ E). simpl.
      apply find_Some in E as (Hi & Hn & _).
      rewrite (find_insert_other _ _ _ g); [done|done| |].
      * unfold idIs. congruence.
      * unfold idIs. rewrite updatedGame_id. congruence.
    + rewrite find_None in E. by rewrite (put_games_id_missing _ _ _ E).
  - destruct (list_find (idIs (Js.parseInt param)) (games st)) as [[i g]|] eqn:E.
    + rewrite (delete_games_id_found _ _ _ _ E). simpl.
      apply find_Some in E as (Hi & Hn & _).
      rewrite (find_delete_other _ _ _ g); [done|done|].
      unfold idIs. congruence.
    + rewrite find_None in E. by rewrite (delete_games_id_missing _ _ E).
  - intros Hc.
    destruct (Js.truthy (Js.prop body "title")) eqn:Ht;
      [destruct (Js.truthy (Js.prop body "platform")) eqn:Hp|].
    + rewrite post_games_created by done. simpl.
      by rewrite find_snoc_other.
    + by rewrite post_games_rejected by auto.
    + by rewrite post_games_rejected by auto.
Qed.

Lemma writes_leave_other_ids_alone_witness :
  (get_games_id "2" (delete_games_id "1" twoGames).2).1 = json (OneGame marioGame) ∧
  (get_games_id "2" (put_games_id "1" clearTitle twoGames).2).1 = json (OneGame marioGame).
Proof.
  assert (Js.parseInt "2" ≠ Js.parseInt "1") as H by discriminate.
  destruct (writes_leave_other_ids_alone "1" "2" clearTitle twoGames H) as (Hp & Hd & _).
  split; [exact Hd|exact Hp].
Defined.

(** ** Create and delete *)

(** X8.  In a store the server can be in, deleting the record a create has
    just added, through any parameter that parses to its id, answers with
    that record and gives back the collection as it was before the create;
    the counter stays one higher. *)
Theorem delete_undoes_create
    (body : gmap string Js.Value) (st : Store) (param : string) :
  reachable st →
  Js.truthy (Js.prop body "title") = true →
  Js.truthy (Js.prop body "platform") = true →
  Js.parseInt param = Some (currentId st) →
  delete_games_id param (post_games body st).2 =
    (json (payload (post_games body st).1),
     {| games := games st; currentId := currentId st + 1 |}) ∧
  delete_games_id (decimal (currentId st)) (post_games body st).2 =
    (json (payload (post_games body st).1),
     {| games := games st; currentId := currentId st + 1 |}).
Proof.
  intros Hreach Ht Hp Hparam.
  assert (idsOk (post_games body st).2) as [_ _ Hnd].
  { apply (transition_idsOk _ _ _ _ (handle_transition (POST_games body) st)).
    by apply reachable_idsOk. }
  rewrite (post_games_created body st Ht Hp) in *. simpl in *.
  set (g := {| id := currentId st;
               title := Js.prop body "title"; platform := Js.prop body "platform";
               releaseYear := Js.or (Js.prop body "releaseYear") Js.Null;
               imageUrl := Js.or (Js.prop body "imageUrl") Js.Null |}) in *.
  assert (∀ p, Js.parseInt p = Some (currentId st) →
               delete_games_id p {| games := games st ++ [g]; currentId := currentId st + 1 |} =
               (json (OneGame g), {| games := games st; currentId := currentId st + 1 |}))
    as Hdel.
  { intros p Hp'.
    rewrite (delete_games_id_found p _ (length (games st)) g).
    - simpl. by rewrite (delete_middle (games st) [] g), app_nil_r.
    - apply find_unique; [done| |done]. simpl.
      by rewrite lookup_app_r, Nat.sub_diag by lia. }
  split; [by apply Hdel|].
  apply Hdel, parseInt_decimal.
  apply reachable_idsOk in Hreach as [Hc _ _]. lia.
Qed.

Lemma delete_undoes_create_witness :
  reachable twoGames ∧
  games (delete_games_id "3" (post_games halo twoGames).2).2 = games twoGames.
Proof.
  split; [exact twoGames_reachable|].
  destruct (delete_undoes_create halo twoGames "3" twoGames_reachable
              eq_refl eq_refl eq_refl) as [H _].
  rewrite H. reflexivity.
Defined.

(** X9.  In a store the server can be in, once a delete has answered 200 the
    id is gone for good: an update and a second delete through the same
    parameter both answer 404 and leave the store as it is. *)
Theorem delete_is_final (param : string) (body : gmap string Js.Value) (st : Store) :
  reachable st →
  status (delete_games_id param st).1 = 200 →
  put_games_id param body (delete_games_id param st).2 =
    (notFound, (delete_games_id param st).2) ∧
  delete_games_id param (delete_games_id param st).2 =
    (notFound, (delete_games_id param st).2).
Proof.
  intros [_ _ Hnd]%reachable_idsOk Hstatus.
  destruct (list_find (idIs (Js.parseInt param)) (games st)) as [[i g]|] eqn:E.
  - rewrite (delete_games_id_found _ _ _ _ E). simpl.
    apply find_Some in E as (Hi & Hn & _).
    pose proof (delete_ids_gone _ _ _ Hnd Hi) as Hgone.
    assert (∀ g', g' ∈ delete i (games st) → Js.parseInt param ≠ Some (id g')) as Hno.
    { intros g' Hg'. rewrite Hn. intros [= Heq]. by apply (Hgone g' Hg'). }
    split.
    + by apply put_games_id_missing.
    + by apply delete_games_id_missing.
  - rewrite find_None in E. rewrite (delete_games_id_missing _ _ E) in Hstatus.
    discriminate Hstatus.
Qed.

Lemma delete_is_final_witness :
  reachable twoGames ∧
  status (delete_games_id "1" (delete_games_id "1" twoGames).2).1 = 404.
Proof.
  split; [exact twoGames_reachable|].
  destruct (delete_is_final "1" ∅ twoGames twoGames_reachable eq_refl) as [_ H].
  rewrite H. reflexivity.
Defined.

(** ** The order of the stored ids *)

Lemma StronglySorted_lt_sublist (l1 l2 : list Z) :
  l1 `sublist_of` l2 → StronglySorted Z.lt l2 → StronglySorted Z.lt l1.
Proof.
  induction 1 as [|x l1 l2 Hsub IH|x l1 l2 Hsub IH]; intros Hs.
  - constructor.
  - apply StronglySorted_inv in Hs as [Hs Hx]. constructor; [by apply IH|].
    apply Forall_forall. intros y Hy. rewrite Forall_forall in Hx.
    apply Hx. by apply (sublist_subseteq _ _ Hsub).
  - apply StronglySorted_inv in Hs as [Hs _]. by apply IH.
Qed.

Lemma StronglySorted_seqZ m (k : nat) : StronglySorted Z.lt (seqZ m (Z.of_nat k)).
Proof.
  revert m. induction k as [|k IH]; intros m; [constructor|].
  rewrite seqZ_cons by lia. constructor.
  - replace (Z.pred (Z.of_nat (S k))) with (Z.of_nat k) by lia. apply IH.
  - apply Forall_forall. intros y Hy%elem_of_seqZ. lia.
Qed.

(** X10.  After any run from the empty store the stored ids are strictly
    increasing along the collection, each is at least 1 and below the
    counter, and the counter is one more than the number of creates that
    answered 201: a request that fails, reads, updates or deletes uses up no
    id. *)
Theorem stored_ids_increasing (reqs : list Request) :
  let log := (serve reqs initial).1 in
  let st := (serve reqs initial).2 in
  StronglySorted Z.lt (id <$> games st) ∧
  Forall (λ g, 1 ≤ id g < currentId st) (games st) ∧
  currentId st = 1 + Z.of_nat (length (created log)).
Proof.
  intros log st.
  destruct (serve_trace reqs initial) as (Hseq & Hcnt & Hsub & _).
  fold log in Hseq, Hcnt, Hsub. fold st in Hcnt, Hsub. simpl in Hseq, Hcnt, Hsub.
  split_and!.
  - apply (StronglySorted_lt_sublist _ _ Hsub). rewrite Hseq.
    apply StronglySorted_seqZ.
  - assert (idsOk st) as [_ Hb _]; [|done].
    apply reachable_idsOk. by exists reqs.
  - exact Hcnt.
Qed.

(** ** Parameters with trailing characters *)

Lemma toDigits_append fuel n acc rest :
  toDigits fuel n acc +:+ rest = toDigits fuel n (acc +:+ rest).
Proof.
  revert n acc. induction fuel as [|fuel IH]; intros n acc; [done|].
  simpl. destruct (n <? 10); [done|]. by rewrite IH.
Qed.

Lemma toDigits_two_digits fuel n d' rest' :
  0 ≤ d' ≤ 9 →
  ∃ d d2 r2, 0 ≤ d ≤ 9 ∧ 0 ≤ d2 ≤ 9 ∧
    toDigits (S fuel) n (String (digitChar d') rest') =
      String (digitChar d) (String (digitChar d2) r2).
Proof.
  revert n d' rest'. induction fuel as [|fuel IH]; intros n d' rest' Hd'.
  - exists (n `mod` 10), d', rest'.
    split; [apply mod10_digit|]. split; [done|]. simpl. by destruct (n <? 10).
  - change (toDigits (S (S fuel)) n (String (digitChar d') rest'))
      with (if n <? 10 then String (digitChar (n `mod` 10)) (String (digitChar d') rest')
            else toDigits (S fuel) (n / 10)
                   (String (digitChar (n `mod` 10)) (String (digitChar d') rest'))).
    destruct (n <? 10).
    + exists (n `mod` 10), d', rest'. split; [apply mod10_digit|]. by split.
    + apply IH, mod10_digit.
Qed.

(** [parseInt] of a string that starts with a decimal digit reads decimal
    digits, unless the string starts with [0x] or [0X]. *)
Lemma parseInt_leading_digit d r :
  0 ≤ d ≤ 9 →
  (d ≠ 0 ∨ match r with
           | String a _ => a ≠ "x"%char ∧ a ≠ "X"%char
           | EmptyString => True
           end) →
  Js.parseInt (String (digitChar d) r) = Js.parseDigits 10 None (String (digitChar d) r).
Proof.
  intros Hd Hx.
  pose proof (byte_of_digitChar d Hd) as Hb.
  assert (Js.trimStart (String (digitChar d) r) = String (digitChar d) r) as Htrim.
  { simpl. unfold Js.isAsciiWhiteSpace, Js.isWhiteSpace2, Js.isWhiteSpace3.
    rewrite Hb.
    replace ((9 <=? 48 + d) && (48 + d <=? 13) || (48 + d =? 32))
      with false by (symmetry; lia).
    destruct r as [|b r]; [done|].
    replace (48 + d =? 194) with false by (symmetry; lia). simpl.
    destruct r as [|c r]; [done|].
    replace (48 + d =? 225) with false by (symmetry; lia).
    replace (48 + d =? 226) with false by (symmetry; lia).
    replace (48 + d =? 227) with false by (symmetry; lia).
    replace (48 + d =? 239) with false by (symmetry; lia).
    done. }
  unfold Js.parseInt. rewrite Htrim.
  assert (Js.stripSign (String (digitChar d) r) = (1, String (digitChar d) r)) as ->.
  { unfold Js.stripSign.
    destruct (decide (digitChar d = "-"%char)) as [E|].
    { exfalso. apply (digitChar_ne d "-"%char Hd); [|exact E].
      change (Js.byte_of "-"%char) with 45. lia. }
    destruct (decide (digitChar d = "+"%char)) as [E|].
    { exfalso. apply (digitChar_ne d "+"%char Hd); [|exact E].
      change (Js.byte_of "+"%char) with 43. lia. }
    by repeat case_match. }
  assert (Js.stripPrefix (String (digitChar d) r) = (10, String (digitChar d) r)) as ->.
  { unfold Js.stripPrefix.
    destruct (decide (digitChar d = "0"%char)) as [E|]; [|by repeat case_match].
    destruct Hx as [Hd0|Hr].
    - exfalso. apply Hd0. rewrite E in Hb.
      change (Js.byte_of "0"%char) with 48 in Hb. lia.
    - destruct r as [|a r]; [by repeat case_match|]. destruct Hr as [Hr1 Hr2].
      by repeat case_match. }
  destruct (Js.parseDigits 10 None (String (digitChar d) r)) as [m|]; [|done].
  f_equal. lia.
Qed.

Lemma radixDigit_non_digit c :
  ¬ (48 ≤ Js.byte_of c ≤ 57) → Js.radixDigit 10 c = None.
Proof.
  intros Hc. unfold Js.radixDigit, Js.digitValue.
  repeat case_match; simplify_eq; try done; lia.
Qed.

(** A decimal numeral followed by anything that does not start with a digit
    parses to the number of the numeral; after the numeral [0] the next
    character must not be [x] or [X], which would make it a hexadecimal
    prefix. *)
Lemma parseInt_decimal_suffix n c rest :
  0 ≤ n → ¬ (48 ≤ Js.byte_of c ≤ 57) →
  (n = 0 → c ≠ "x"%char ∧ c ≠ "X"%char) →
  Js.parseInt (decimal n +:+ String c rest) = Some n.
Proof.
  intros Hn Hc Hx. unfold decimal.
  rewrite toDigits_append. change (""%string +:+ String c rest) with (String c rest).
  assert (Js.parseDigits 10 None
            (toDigits (S (Z.to_nat (Z.log2 n))) n (String c rest)) = Some n) as Hdigits.
  { rewrite parseDigits_toDigits; [by simpl; rewrite radixDigit_non_digit| |lia].
    split; [done|].
    destruct (decide (n = 0)) as [->|]; [done|].
    rewrite Nat2Z.inj_succ, Z2Nat.id by apply Z.log2_nonneg.
    pose proof (Z.log2_spec n ltac:(lia)) as [_ Hlog].
    eapply Z.lt_le_trans; [exact Hlog|].
    apply Z.pow_le_mono_l. lia. }
  rewrite <- Hdigits.
  change (toDigits (S (Z.to_nat (Z.log2 n))) n (String c rest))
    with (if n <? 10 then String (digitChar (n `mod` 10)) (String c rest)
          else toDigits (Z.to_nat (Z.log2 n)) (n / 10)
                 (String (digitChar (n `mod` 10)) (String c rest))).
  destruct (n <? 10) eqn:Hlt.
  - apply parseInt_leading_digit; [apply mod10_digit|].
    rewrite Z.mod_small by lia.
    destruct (decide (n = 0)) as [->|]; [right; by apply Hx|by left].
  - assert (∃ k, Z.to_nat (Z.log2 n) = S k) as [k ->].
    { assert (3 ≤ Z.log2 n); [|exists (Nat.pred (Z.to_nat (Z.log2 n))); lia].
      change 3 with (Z.log2 8). apply Z.log2_le_mono. lia. }
    destruct (toDigits_two_digits k (n / 10) (n `mod` 10) (String c rest))
      as (d & d2 & r2 & Hd & Hd2 & ->); [apply mod10_digit|].
    apply parseInt_leading_digit; [done|]. right. split.
    + apply digitChar_ne; [done|]. change (Js.byte_of "x"%char) with 120. lia.
    + apply digitChar_ne; [done|]. change (Js.byte_of "X"%char) with 88. lia.
Qed.

(** X11.  The handlers read the parameter with [parseInt], which stops at
    the first character that is not a digit: in a store the server can be
    in, a lookup whose parameter is the decimal numeral of a stored id
    followed by any characters, the first of which is not a digit, answers
    with the record of that id. *)
Theorem lookup_ignores_trailing_characters
    (st : Store) (g : Game) (c : ascii) (rest : string) :
  reachable st →
  g ∈ games st →
  ¬ (48 ≤ Js.byte_of c ≤ 57) →
  Js.parseInt (decimal (id g) +:+ String c rest) = Some (id g) ∧
  get_games_id (decimal (id g) +:+ String c rest) st = (json (OneGame g), st).
Proof.
  intros [_ Hb Hnd]%reachable_idsOk Hin Hc.
  rewrite Forall_forall in Hb. specialize (Hb g Hin).
  assert (Js.parseInt (decimal (id g) +:+ String c rest) = Some (id g)) as Hparse.
  { apply parseInt_decimal_suffix; [lia|done|lia]. }
  split; [done|].
  apply list_elem_of_lookup in Hin as [i Hi].
  apply (get_games_id_found _ _ i). by apply find_unique.
Qed.

Lemma lookup_ignores_trailing_characters_witness :
  reachable twoGames ∧
  get_games_id "2nd" twoGames = (json (OneGame marioGame), twoGames).
Proof.
  split; [exact twoGames_reachable|].
  refine (proj2 (lookup_ignores_trailing_characters twoGames marioGame "n"%char "d"
                   twoGames_reachable _ _)).
  - apply list_elem_of_further, list_elem_of_here.
  - change (Js.byte_of "n"%char) with 110. lia.
Defined.

(** ** Optional fields *)

Lemma or_optionalOk v old : optionalOk old → optionalOk (Js.or v old).
Proof.
  intros Hold. unfold Js.or. destruct (Js.truthy v) eqn:E; [by right|done].
Qed.

Lemma updatedGame_optional body g :
  optionalOk (releaseYear g) ∧ optionalOk (imageUrl g) →
  optionalOk (releaseYear (updatedGame body g)) ∧
  optionalOk (imageUrl (updatedGame body g)).
Proof.
  intros [Hy Hu]. rewrite updatedGame_fields. simpl. auto using or_optionalOk.
Qed.

Lemma handle_optionalFields r st :
  optionalFields st → optionalFields (handle r st).2.
Proof.
  unfold optionalFields. intros H.
  destruct r as [body| |param|param body|param|]; simpl.
  - destruct (Js.truthy (Js.prop body "title")) eqn:Ht;
      [destruct (Js.truthy (Js.prop body "platform")) eqn:Hp|].
    + rewrite post_games_created by done. simpl.
      apply Forall_app. split; [done|]. apply Forall_singleton. simpl.
      split; apply or_optionalOk; by left.
    + by rewrite post_games_rejected by auto.
    + by rewrite post_games_rejected by auto.
  - done.
  - unfold get_games_id. by repeat case_match.
  - destruct (list_find (idIs (Js.parseInt param)) (games st)) as [[i g]|] eqn:E.
    + rewrite (put_games_id_found _ _ _ _ _ E). simpl.
      apply find_Some in E as (Hi & _).
      apply Forall_insert; [done|]. apply updatedGame_optional.
      rewrite Forall_forall in H. apply H. by eapply list_elem_of_lookup_2.
    + rewrite find_None in E. by rewrite (put_games_id_missing _ _ _ E).
  - destruct (list_find (idIs (Js.parseInt param)) (games st)) as [[i g]|] eqn:E.
    + rewrite (delete_games_id_found _ _ _ _ E). simpl. by apply Forall_delete.
    + rewrite find_None in E. by rewrite (delete_games_id_missing _ _ E).
  - done.
Qed.

(** X12.  [releaseYear] and [imageUrl] of a stored record are [null] or a
    truthy value, and stay so through any sequence of requests: a create
    stores [null] for a value that is absent or falsy, and an update only
    writes truthy values.  In particular they are never [undefined], zero
    or the empty string. *)
Theorem optional_fields_null_or_truthy (reqs : list Request) (st : Store) :
  optionalFields st →
  ∀ g, g ∈ games (serve reqs st).2 →
    (releaseYear g = Js.Null ∨ Js.truthy (releaseYear g) = true) ∧
    (imageUrl g = Js.Null ∨ Js.truthy (imageUrl g) = true) ∧
    releaseYear g ≠ Js.Undefined ∧ releaseYear g ≠ Js.Num 0 ∧
    imageUrl g ≠ Js.Undefined ∧ imageUrl g ≠ Js.Str "".
Proof.
  intros H g Hg.
  assert (optionalFields (serve reqs st).2) as Hfinal.
  { clear g Hg. revert st H. induction reqs as [|r reqs IH]; intros st H; [done|].
    rewrite serve_cons. simpl. by apply IH, handle_optionalFields. }
  unfold optionalFields in Hfinal. rewrite Forall_forall in Hfinal.
  destruct (Hfinal g Hg) as [Hy Hu].
  split_and!; [done|done|..].
  - destruct Hy as [->|Hy]; [done|]. by destruct (truthy_nonempty _ Hy) as (? & _).
  - destruct Hy as [->|Hy]; [done|]. by destruct (truthy_nonempty _ Hy) as (_ & _ & _ & ? & _).
  - destruct Hu as [->|Hu]; [done|]. by destruct (truthy_nonempty _ Hu) as (? & _).
  - destruct Hu as [->|Hu]; [done|]. by destruct (truthy_nonempty _ Hu) as (_ & _ & ? & _).
Qed.

Lemma optional_fields_null_or_truthy_witness :
  optionalFields initial ∧
  ∀ g, g ∈ games (serve [POST_games halo; PUT_games_id "1" clearTitle] initial).2 →
       releaseYear g ≠ Js.Undefined ∧ imageUrl g ≠ Js.Undefined.
Proof.
  split; [apply Forall_nil_2|].
  intros g Hg.
  destruct (optional_fields_null_or_truthy
              [POST_games halo; PUT_games_id "1" clearTitle] initial
              (Forall_nil_2 _) g Hg) as (_ & _ & Hy & _ & Hu & _).
  split; [exact Hy|exact Hu].
Defined.

(** ** What a listing shows *)

Lemma deletedIds_cons e log :
  deletedIds (e :: log) =
    match deletedGame e with
    | Some g => id g :: deletedIds log
    | None => deletedIds log
    end.
Proof. unfold deletedIds. simpl. by destruct (deletedGame e). Qed.

Lemma deletedGame_failed e : deleteSucceeded e = false → deletedGame e = None.
Proof. destruct e as [[] res]; simpl; try done. by intros ->. Qed.

Lemma filter_keep_all (P : Z → Prop) `{∀ x, Decision (P x)} (l : list Z) :
  Forall P l → filter P l = l.
Proof.
  induction 1 as [|x l Hx _ IH]; [done|].
  by rewrite filter_cons_True, IH.
Qed.

Lemma filter_ne_delete (l : list Z) i x :
  NoDup l → l !! i = Some x → filter (λ y, y ≠ x) l = delete i l.
Proof.
  revert i. induction l as [|y l IH]; intros i Hnd Hi; [done|].
  apply NoDup_cons in Hnd as [Hy Hnd].
  destruct i as [|i]; simpl in Hi.
  - injection Hi as ->. rewrite filter_cons_False by (intros ?; done). simpl.
    apply filter_keep_all, Forall_forall. intros z Hz ->. done.
  - rewrite filter_cons_True.
    + simpl. f_equal. by apply IH.
    + intros ->. apply Hy. by eapply list_elem_of_lookup_2.
Qed.

Lemma filter_not_deleted x (D l : list Z) :
  filter (λ i, i ∉ x :: D) l = filter (λ i, i ∉ D) (filter (λ y, y ≠ x) l).
Proof.
  rewrite list_filter_filter. apply list_filter_iff.
  intros y. rewrite not_elem_of_cons. tauto.
Qed.

(** From a store with distinct ids below the counter, the stored ids after a
    run are the ids stored before and the ids created, in that order, less
    the ids deleted. *)
Lemma serve_stored_ids reqs st :
  idsOk st →
  id <$> games (serve reqs st).2 =
    filter (λ i, i ∉ deletedIds (serve reqs st).1)
      ((id <$> games st) ++ (id <$> created (serve reqs st).1)).
Proof.
  revert st. induction reqs as [|r reqs IH]; intros st Hok.
  - simpl. rewrite app_nil_r. symmetry. apply filter_keep_all, Forall_forall.
    intros x _. unfold deletedIds. simpl. apply not_elem_of_nil.
  - rewrite serve_cons. cbn [fst snd].
    pose proof (handle_transition r st) as Ht.
    pose proof (transition_idsOk _ _ _ _ Ht Hok) as Hok'.
    specialize (IH _ Hok').
    destruct (serve_trace reqs (handle r st).2) as (Hseq & _ & _ & _).
    cbv zeta in Hseq.
    set (log := (serve reqs (handle r st).2).1) in *.
    set (st'' := (serve reqs (handle r st).2).2) in *.
    clearbody log st''.
    rewrite created_cons, deletedIds_cons.
    destruct Ht as [r res Hc Hd|body g Hid _ _|param body i g Hi|param i g Hi].
    + by rewrite Hc, (deletedGame_failed _ Hd).
    + simpl in *. rewrite fmap_app, <- app_assoc in IH. exact IH.
    + simpl in *. by rewrite ids_insert_updated in IH.
    + simpl in *.
      rewrite IH, filter_not_deleted. f_equal.
      rewrite filter_app, list_fmap_delete. f_equal.
      * symmetry. apply filter_ne_delete; [by destruct Hok|].
        by rewrite list_lookup_fmap, Hi.
      * symmetry. apply filter_keep_all, Forall_forall.
        intros x Hx. rewrite Hseq in Hx. apply elem_of_seqZ in Hx.
        destruct Hok as [_ Hb _]. rewrite Forall_forall in Hb.
        specialize (Hb g (list_elem_of_lookup_2 _ _ _ Hi)). lia.
Qed.

(** X13.  After any run from the empty store, a listing shows exactly the
    records that were created and not deleted since, in the order of their
    creation: the stored ids are the ids given out, without the ids of the
    records that deletes answered with. *)
Theorem listing_is_created_minus_deleted (reqs : list Request) :
  let log := (serve reqs initial).1 in
  let st := (serve reqs initial).2 in
  id <$> games st = filter (λ i, i ∉ deletedIds log) (id <$> created log) ∧
  (∀ i, i ∈ id <$> games st ↔ i ∈ id <$> created log ∧ i ∉ deletedIds log).
Proof.
  intros log st.
  pose proof (serve_stored_ids reqs initial initial_idsOk) as H.
  fold log st in H. simpl in H. split; [exact H|].
  intros i. rewrite H, list_elem_of_filter. tauto.
Qed.

(** ** Ids out of range *)

(** X14.  In a store the server can be in, a parameter that parses to a
    number below 1 (zero, a negative number) or to a number the counter has
    not reached yet finds nothing: lookup, update and delete answer 404 and
    leave the store as it is. *)
Theorem out_of_range_id_not_found
    (param : string) (n : Z) (body : gmap string Js.Value) (st : Store) :
  reachable st →
  Js.parseInt param = Some n →
  n < 1 ∨ currentId st ≤ n →
  get_games_id param st = (notFound, st) ∧
  put_games_id param body st = (notFound, st) ∧
  delete_games_id param st = (notFound, st).
Proof.
  intros [_ Hb _]%reachable_idsOk Hparse Hn.
  assert (∀ g, g ∈ games st → Js.parseInt param ≠ Some (id g)) as Hno.
  { intros g Hg. rewrite Hparse. intros [= ->].
    rewrite Forall_forall in Hb. specialize (Hb g Hg). lia. }
  split_and!.
  - by apply get_games_id_missing.
  - by apply put_games_id_missing.
  - by apply delete_games_id_missing.
Qed.

Lemma out_of_range_id_not_found_witness :
  reachable twoGames ∧
  get_games_id "-1" twoGames = (notFound, twoGames) ∧
  delete_games_id "3" twoGames = (notFound, twoGames).
Proof.
  split; [exact twoGames_reachable|]. split.
  - refine (proj1 (out_of_range_id_not_found "-1" (-1) ∅ twoGames
                     twoGames_reachable eq_refl _)).
    left. reflexivity.
  - refine (proj2 (proj2 (out_of_range_id_not_found "3" 3 ∅ twoGames
                            twoGames_reachable eq_refl _))).
    right. discriminate.
Defined.

Lemma listing_is_created_minus_deleted_witness :
  id <$> games (serve [POST_games halo; POST_games mario; DELETE_games_id "1"] initial).2
    = [2].
Proof.
  rewrite (proj1 (listing_is_created_minus_deleted
                    [POST_games halo; POST_games mario; DELETE_games_id "1"])).
  reflexivity.
Defined.
